(** * LaserBench: ray tracer and puzzle generator of scripts/test_all_providers.py

    A shallow embedding of [simulate_laser], [find_portal_exit],
    [get_next_direction], [col_to_letter], [generate_grid] and
    [generate_puzzle].  Python integers are [Z]; the grid is a list of rows
    of glyph strings; Python dicts and sets local to [simulate_laser] are
    association lists; the random module is a stream of integer draws. *)

From Stdlib Require Import ZArith List String Ascii Bool Lia.
Import ListNotations.
Open Scope string_scope.
Open Scope Z_scope.

(** ** Directions and glyphs *)

(** [Direction = Literal["right", "left", "up", "down"]] *)
Inductive Direction := DRight | DLeft | DUp | DDown.

Definition Direction_eqb (a b : Direction) : bool :=
  match a, b with
  | DRight, DRight | DLeft, DLeft | DUp, DUp | DDown, DDown => true
  | _, _ => false
  end.

Definition Grid := list (list string).

(** [PORTAL_CELLS = ["1", "2", "3"]] *)
Definition PORTAL_CELLS : list string := ["1"; "2"; "3"].

(** [DEGRADING_MIRRORS = {"~": "/", "`": "\\"}] (a Rocq string writes the
    backslash glyph as a single backslash). *)
Definition DEGRADING_MIRRORS : list (string * string) := [("~", "/"); ("`", "\")].
Definition TOGGLE_MIRRORS_ON : list (string * string) := [("[/", "/"); ("[\", "\")].
Definition TOGGLE_MIRRORS_OFF : list (string * string) := [("]/", "/"); ("]\", "\")].
Definition FLIPPING_MIRRORS : list (string * string) := [("{/", "/"); ("{\", "\")].

(** [d.get(k)] for a dict literal with string keys. *)
Fixpoint dict_get (d : list (string * string)) (k : string) : option string :=
  match d with
  | [] => None
  | (k', v) :: d' => if String.eqb k k' then Some v else dict_get d' k
  end.

Definition dict_mem (d : list (string * string)) (k : string) : bool :=
  match dict_get d k with Some _ => true | None => false end.

Definition list_mem (l : list string) (k : string) : bool :=
  existsb (String.eqb k) l.

(** ** [get_next_direction] *)
Definition get_next_direction (current : Direction) (mirror : string) : Direction :=
  if String.eqb mirror "/" then
    match current with
    | DRight => DUp | DLeft => DDown | DUp => DRight | DDown => DLeft
    end
  else
    match current with
    | DRight => DDown | DLeft => DUp | DUp => DLeft | DDown => DRight
    end.

(** ** [col_to_letter] *)
Fixpoint col_to_letter_loop (fuel : nat) (col : Z) (result : string) : string :=
  match fuel with
  | O => result
  | S fuel' =>
      if 0 <? col then
        let col1 := col - 1 in
        let result1 := String (ascii_of_nat (Z.to_nat (65 + col1 mod 26))) result in
        col_to_letter_loop fuel' (col1 / 26) result1
      else result
  end.

(** The loop runs at most [col] times: each turn maps [col] to
    [(col - 1) // 26 < col]. *)
Definition col_to_letter (col : Z) : string :=
  col_to_letter_loop (S (Z.to_nat col)) col EmptyString.

(** ** Grid access *)

(** [grid[r][c]] for [0 <= r, 0 <= c]; [None] is the [IndexError]. *)
Definition cell_at (grid : Grid) (r c : Z) : option string :=
  match nth_error grid (Z.to_nat r) with
  | Some line => nth_error line (Z.to_nat c)
  | None => None
  end.

(** [for i in range(n)] returning the first hit; the outer [None] is an
    exception raised by the body. *)
Fixpoint range_find {A} (i : Z) (n : nat) (f : Z -> option (option A))
  : option (option A) :=
  match n with
  | O => Some None
  | S n' =>
      match f i with
      | None => None
      | Some (Some a) => Some (Some a)
      | Some None => range_find (i + 1) n' f
      end
  end.

(** [find_portal_exit]: scan rows, then columns, for the first other cell
    carrying [portal_char].  [len(grid[0])] on an empty grid raises. *)
Definition find_portal_exit (grid : Grid) (portal_char : string) (entry_row entry_col : Z)
  : option (option (Z * Z)) :=
  match grid with
  | [] => None
  | first :: _ =>
      let rows := Z.of_nat (List.length grid) in
      let cols := Z.of_nat (List.length first) in
      range_find 0 (Z.to_nat rows) (fun r =>
        range_find 0 (Z.to_nat cols) (fun c =>
          match cell_at grid r c with
          | None => None
          | Some g =>
              if String.eqb g portal_char && negb ((r =? entry_row) && (c =? entry_col))
              then Some (Some (r, c)) else Some None
          end))
  end.

(** ** Tracer state

    The locals of [simulate_laser]: the grid object it was handed, [path],
    [degraded_mirrors] (a set), [toggle_state] and [flip_state] (dicts keyed
    by [(row, col)]), and the ray's [row], [col], [direction], [bounces] and
    [teleports]. *)

Definition Pos := (Z * Z)%type.

Definition pos_eqb (p q : Pos) : bool := (fst p =? fst q) && (snd p =? snd q).

Fixpoint assoc_get {V} (d : list (Pos * V)) (p : Pos) : option V :=
  match d with
  | [] => None
  | (k, v) :: d' => if pos_eqb k p then Some v else assoc_get d' p
  end.

Definition assoc_mem {V} (d : list (Pos * V)) (p : Pos) : bool :=
  match assoc_get d p with Some _ => true | None => false end.

(** [d[p] = v]: an existing key keeps its place, a new one goes last. *)
Fixpoint assoc_set {V} (d : list (Pos * V)) (p : Pos) (v : V) : list (Pos * V) :=
  match d with
  | [] => [(p, v)]
  | (k, w) :: d' => if pos_eqb k p then (k, v) :: d' else (k, w) :: assoc_set d' p v
  end.

Definition set_mem (s : list Pos) (p : Pos) : bool := existsb (pos_eqb p) s.

(** [s.add(p)] *)
Definition set_add (s : list Pos) (p : Pos) : list Pos :=
  if set_mem s p then s else s ++ [p].

Record State := mkState {
  st_grid : Grid;
  st_path : list (Z * Z * Direction);
  st_degraded : list Pos;
  st_toggle : list (Pos * bool);
  st_flip : list (Pos * string);
  st_row : Z;
  st_col : Z;
  st_dir : Direction;
  st_bounces : Z;
  st_teleports : Z
}.

(** Exit positions: a 1-indexed row, or a column letter. *)
Inductive ExitPos := PosRow (r : Z) | PosCol (s : string).

Record TraceResult := mkResult {
  r_path : list (Z * Z * Direction);
  r_edge : string;
  r_position : ExitPos;
  r_bounces : Z;
  r_teleports : Z;
  r_degraded : list Pos;
  r_toggle : list (Pos * bool);
  r_flip : list (Pos * string)
}.

(** [make_result] reads the current values of the enclosing locals. *)
Definition make_result (st : State) (edge : string) (position : ExitPos) : TraceResult :=
  mkResult (st_path st) edge position (st_bounces st) (st_teleports st)
    (st_degraded st) (st_toggle st) (st_flip st).

(** Lines 144-148: [row = start_row], [col = 0], [direction = start_direction],
    counters at zero, empty path and empty mirror state. *)
Definition init_state (grid : Grid) (start_row : Z) (start_direction : Direction) : State :=
  mkState grid [] [] [] [] start_row 0 start_direction 0 0.

(** The single-cell advance of lines 221-228 and 231-238. *)
Definition advance (d : Direction) (r c : Z) : Pos :=
  match d with
  | DRight => (r, c + 1)
  | DLeft => (r, c - 1)
  | DUp => (r - 1, c)
  | DDown => (r + 1, c)
  end.

Definition with_dir_bounces (st : State) (d : Direction) (b : Z) : State :=
  mkState (st_grid st) (st_path st) (st_degraded st) (st_toggle st) (st_flip st)
    (st_row st) (st_col st) d b (st_teleports st).

(** [cell in TOGGLE_MIRRORS_ON or cell in TOGGLE_MIRRORS_OFF] *)
Definition is_toggle (cell : string) : bool :=
  dict_mem TOGGLE_MIRRORS_ON cell || dict_mem TOGGLE_MIRRORS_OFF cell.

(** [TOGGLE_MIRRORS_ON.get(cell) or TOGGLE_MIRRORS_OFF.get(cell)]; a [None]
    here would compare unequal to "/", as the empty string does. *)
Definition toggle_mirror_type (cell : string) : string :=
  match dict_get TOGGLE_MIRRORS_ON cell with
  | Some m => m
  | None => match dict_get TOGGLE_MIRRORS_OFF cell with
            | Some m => m | None => EmptyString end
  end.

(** The [if/elif] chain of lines 177-229 on the cell [cell] at the ray's
    position.  The boolean is [true] when the portal branch ran [continue].
    [None] is an exception ([KeyError] or the [IndexError] of
    [find_portal_exit]). *)
Definition process (st : State) (cell : string) : option (State * bool) :=
  let pos := (st_row st, st_col st) in
  let direction := st_dir st in
  let bounces := st_bounces st in
  if list_mem ["/"; "\"] cell then
    Some (with_dir_bounces st (get_next_direction direction cell) (bounces + 1), false)
  else if dict_mem DEGRADING_MIRRORS cell then
    if negb (set_mem (st_degraded st) pos) then
      match dict_get DEGRADING_MIRRORS cell with
      | None => None
      | Some mirror_type =>
          Some (mkState (st_grid st) (st_path st) (set_add (st_degraded st) pos)
                  (st_toggle st) (st_flip st) (st_row st) (st_col st)
                  (get_next_direction direction mirror_type) (bounces + 1)
                  (st_teleports st), false)
      end
    else Some (st, false)
  else if is_toggle cell then
    let ts1 := if negb (assoc_mem (st_toggle st) pos)
               then assoc_set (st_toggle st) pos (dict_mem TOGGLE_MIRRORS_ON cell)
               else st_toggle st in
    match assoc_get ts1 pos with
    | None => None
    | Some on =>
        let mirror_type := toggle_mirror_type cell in
        let '(d', b') := if on then (get_next_direction direction mirror_type, bounces + 1)
                         else (direction, bounces) in
        Some (mkState (st_grid st) (st_path st) (st_degraded st)
                (assoc_set ts1 pos (negb on)) (st_flip st) (st_row st) (st_col st)
                d' b' (st_teleports st), false)
    end
  else if dict_mem FLIPPING_MIRRORS cell then
    let fs1 := if negb (assoc_mem (st_flip st) pos)
               then match dict_get FLIPPING_MIRRORS cell with
                    | Some o => Some (assoc_set (st_flip st) pos o)
                    | None => None
                    end
               else Some (st_flip st) in
    match fs1 with
    | None => None
    | Some fs1 =>
        match assoc_get fs1 pos with
        | None => None
        | Some current_orientation =>
            Some (mkState (st_grid st) (st_path st) (st_degraded st) (st_toggle st)
                    (assoc_set fs1 pos (if String.eqb current_orientation "/" then "\" else "/"))
                    (st_row st) (st_col st)
                    (get_next_direction direction current_orientation) (bounces + 1)
                    (st_teleports st), false)
        end
    end
  else if list_mem PORTAL_CELLS cell then
    match find_portal_exit (st_grid st) cell (st_row st) (st_col st) with
    | None => None
    | Some None => Some (st, false)
    | Some (Some (r', c')) =>
        let '(r'', c'') := advance direction r' c' in
        Some (mkState (st_grid st) (st_path st) (st_degraded st) (st_toggle st)
                (st_flip st) r'' c'' direction bounces (st_teleports st + 1), true)
    end
  else Some (st, false).

(** Outcome of one turn of [while True]. *)
Inductive Outcome :=
  | Exit (res : TraceResult)   (* a [return make_result(...)] inside the loop *)
  | Next (st : State)          (* the loop goes round again *)
  | Break (st : State)         (* [len(path) > 1000]: [break] *)
  | Crash.                     (* an exception *)

(** Lines 231-238: one cell forward in the current direction. *)
Definition move (st : State) : State :=
  let '(r', c') := advance (st_dir st) (st_row st) (st_col st) in
  mkState (st_grid st) (st_path st) (st_degraded st) (st_toggle st) (st_flip st)
    r' c' (st_dir st) (st_bounces st) (st_teleports st).

(** [path.append(...)] at the top of a turn inside the grid. *)
Definition record (st : State) : State :=
  mkState (st_grid st) (st_path st ++ [(st_row st, st_col st, st_dir st)])
    (st_degraded st) (st_toggle st) (st_flip st) (st_row st) (st_col st) (st_dir st)
    (st_bounces st) (st_teleports st).

Definition step (rows cols : Z) (st : State) : Outcome :=
  let row := st_row st in
  let col := st_col st in
  if row <? 0 then Exit (make_result st "top" (PosCol (col_to_letter (col + 1))))
  else if rows <=? row then Exit (make_result st "bottom" (PosCol (col_to_letter (col + 1))))
  else if col <? 0 then Exit (make_result st "left" (PosRow (row + 1)))
  else if cols <=? col then Exit (make_result st "right" (PosRow (row + 1)))
  else
    let st1 := record st in
    match cell_at (st_grid st1) row col with
    | None => Crash
    | Some cell =>
        match process st1 cell with
        | None => Crash
        | Some (st2, true) => Next st2
        | Some (st2, false) =>
            let st3 := move st2 in
            if 1000 <? Z.of_nat (List.length (st_path st3)) then Break st3 else Next st3
        end
    end.

(** What a call of [simulate_laser] does: it returns a result, raises, or
    keeps looping past the fuel. *)
Inductive SimResult := Returned (r : TraceResult) | Raised | Diverged.

Fixpoint run (fuel : nat) (rows cols : Z) (st : State) : SimResult :=
  match fuel with
  | O => Diverged
  | S fuel' =>
      match step rows cols st with
      | Exit r => Returned r
      | Crash => Raised
      | Break st' => Returned (make_result st' "right" (PosRow 1))
      | Next st' => run fuel' rows cols st'
      end
  end.

Definition grid_rows (grid : Grid) : Z := Z.of_nat (List.length grid).
Definition grid_cols (grid : Grid) : Z :=
  match grid with [] => 0 | first :: _ => Z.of_nat (List.length first) end.

Definition simulate_laser_fuel (fuel : nat) (grid : Grid) (start_row : Z)
  (start_direction : Direction) : SimResult :=
  match grid with
  | [] => Raised
  | _ => run fuel (grid_rows grid) (grid_cols grid) (init_state grid start_row start_direction)
  end.

(** Every non-teleport turn checks the step ceiling and every turn appends
    to [path], so only a cycle made of teleports alone outlives the ceiling;
    such a run never returns, and [Diverged] stands for it. *)
Definition simulate_laser (grid : Grid) (start_row : Z) (start_direction : Direction) : SimResult :=
  simulate_laser_fuel (20 * 1000) grid start_row start_direction.

(** The states the loop passes through, from [init_state]. *)
Inductive reachable (rows cols : Z) (st0 : State) : State -> Prop :=
  | reach_init : reachable rows cols st0 st0
  | reach_next st st' :
      reachable rows cols st0 st -> step rows cols st = Next st' -> reachable rows cols st0 st'.

(** ** Random source and generator monad

    [random.randint(a, b)] and [random.random() < 0.5] read successive
    draws of a stream [draw]; any sequence of outcomes of the source's
    generator is the image of some stream.  A computation threads the index
    of the next draw and fails ([None]) where Python raises, or where a
    rejection loop runs out of its fuel. *)

Section Generator.

Variable draw : nat -> Z.

Definition M (A : Type) : Type := nat -> option (A * nat).

Definition ret {A} (a : A) : M A := fun i => Some (a, i).
Definition fail {A} : M A := fun _ => None.
Definition bind {A B} (m : M A) (k : A -> M B) : M B :=
  fun i => match m i with Some (a, i') => k a i' | None => None end.

Local Notation "x <- m ;; k" := (bind m (fun x => k)) (at level 61, m at next level, right associativity).

Definition lift {A} (o : option A) : M A :=
  match o with Some a => ret a | None => fail end.

(** [random.randint(a, b)]: raises [ValueError] when [b < a]. *)
Definition randint (a b : Z) : M Z :=
  fun i => if b <? a then None else Some (a + draw i mod (b - a + 1), S i).

(** [random.random() < 0.5] *)
Definition coin : M bool := fun i => Some (Z.even (draw i), S i).

Fixpoint list_set {A} (l : list A) (n : nat) (v : A) : list A :=
  match l, n with
  | [], _ => []
  | _ :: l', O => v :: l'
  | x :: l', S n' => x :: list_set l' n' v
  end.

(** [grid[r][c] = v] *)
Definition set_cell (grid : Grid) (r c : Z) (v : string) : Grid :=
  match nth_error grid (Z.to_nat r) with
  | Some line => list_set grid (Z.to_nat r) (list_set line (Z.to_nat c) v)
  | None => grid
  end.

(** One [while placed < count] loop of [generate_grid]: draw [r] and [c],
    and if [grid[r][c] == "."] draw the glyph with [pick] and place it. *)
Fixpoint place_loop (fuel : nat) (rows cols count : Z) (pick : M string)
  (placed : Z) (grid : Grid) : M Grid :=
  match fuel with
  | O => fail
  | S fuel' =>
      if placed <? count then
        r <- randint 0 (rows - 1) ;;
        c <- randint 0 (cols - 1) ;;
        cell <- lift (cell_at grid r c) ;;
        if String.eqb cell "." then
          v <- pick ;;
          place_loop fuel' rows cols count pick (placed + 1) (set_cell grid r c v)
        else place_loop fuel' rows cols count pick placed grid
      else ret grid
  end.

Definition pick_normal : M string := b <- coin ;; ret (if b then "/" else "\").
Definition pick_degrading : M string := b <- coin ;; ret (if b then "~" else "`").
Definition pick_toggle : M string :=
  b <- coin ;;
  let mirror_type := if b then "/" else "\" in
  start_on <- coin ;;
  ret (if start_on then "[" ++ mirror_type else "]" ++ mirror_type).
Definition pick_flipping : M string := b <- coin ;; ret (if b then "{/" else "{\").

(** [for p in range(min(portal_count, len(PORTAL_CELLS)))] placing
    [PORTAL_CELLS[p]] twice. *)
Fixpoint portal_loop (fuel : nat) (rows cols : Z) (chars : list string) (grid : Grid) : M Grid :=
  match chars with
  | [] => ret grid
  | portal_char :: chars' =>
      grid' <- place_loop fuel rows cols 2 (ret portal_char) 0 grid ;;
      portal_loop fuel rows cols chars' grid'
  end.

(** [generate_grid]; [int(a * p / t)] of the small configuration integers is
    the truncated quotient, and [t = 0] raises [ZeroDivisionError].  [fuel]
    bounds the draws of each rejection loop. *)
Definition generate_grid (fuel : nat) (rows cols mirror_count portal_count : Z)
  (mirror_distribution : Z * Z * Z * Z) : M Grid :=
  let grid := repeat (repeat "." (Z.to_nat cols)) (Z.to_nat rows) in
  let '(normal_pct, degrading_pct, toggle_pct, flipping_pct) := mirror_distribution in
  let total_pct := normal_pct + degrading_pct + toggle_pct + flipping_pct in
  if total_pct =? 0 then fail else
  let normal_count := Z.quot (mirror_count * normal_pct) total_pct in
  let degrading_count := Z.quot (mirror_count * degrading_pct) total_pct in
  let toggle_count := Z.quot (mirror_count * toggle_pct) total_pct in
  let flipping_count := mirror_count - normal_count - degrading_count - toggle_count in
  grid <- place_loop fuel rows cols normal_count pick_normal 0 grid ;;
  grid <- place_loop fuel rows cols degrading_count pick_degrading 0 grid ;;
  grid <- place_loop fuel rows cols toggle_count pick_toggle 0 grid ;;
  grid <- place_loop fuel rows cols flipping_count pick_flipping 0 grid ;;
  portal_loop fuel rows cols (firstn (Z.to_nat (Z.min portal_count 3)) PORTAL_CELLS) grid.

(** ** [generate_puzzle_ascii] *)

Definition newline : string := String (ascii_of_nat 10) EmptyString.

Fixpoint digits (fuel : nat) (n : Z) (acc : string) : string :=
  match fuel with
  | O => acc
  | S fuel' =>
      let acc' := String (ascii_of_nat (Z.to_nat (48 + n mod 10))) acc in
      if n <? 10 then acc' else digits fuel' (n / 10) acc'
  end.

(** [str(n)] for [n >= 0] (a positive [n] has at most [log2 n + 1] digits). *)
Definition str_of_Z (n : Z) : string := digits (S (Z.to_nat (Z.log2 n))) n EmptyString.

Fixpoint str_repeat (n : nat) (s : string) : string :=
  match n with O => EmptyString | S n' => s ++ str_repeat n' s end.

(** [s.rjust(2)] *)
Definition rjust2 (s : string) : string :=
  str_repeat (2 - String.length s) " " ++ s.

Fixpoint render_cells (cells : list string) : string :=
  match cells with [] => EmptyString | g :: cs => g ++ " " ++ render_cells cs end.

(** Rows of the grid; [grid[r][c]] for [c < cols] raises on a short row. *)
Fixpoint render_rows (rows_left : list (list string)) (r start_row : Z) (cols : nat) : option string :=
  match rows_left with
  | [] => Some EmptyString
  | line :: rest =>
      if (cols <=? List.length line)%nat then
        match render_rows rest (r + 1) start_row cols with
        | None => None
        | Some tail =>
            Some (rjust2 (str_of_Z (r + 1)) ++ "|" ++ (if r =? start_row then ">" else " ")
                  ++ render_cells (firstn cols line) ++ "|" ++ newline ++ tail)
        end
      else None
  end.

Fixpoint header (c : Z) (n : nat) : string :=
  match n with O => EmptyString | S n' => col_to_letter c ++ " " ++ header (c + 1) n' end.

Definition generate_puzzle_ascii (grid : Grid) (start_row : Z) : option string :=
  match grid with
  | [] => None
  | first :: _ =>
      let cols := List.length first in
      let border := "  +" ++ str_repeat (cols * 2 + 1) "-" ++ "+" in
      match render_rows grid 0 start_row cols with
      | None => None
      | Some body =>
          Some ("    " ++ header 1 cols ++ newline ++ border ++ newline ++ body ++ border)
      end
  end.

(** ** [generate_puzzle] *)

(** An entry of [PUZZLE_CONFIG] (scripts/puzzle_config.py). *)
Record Config := mkConfig {
  cfg_rows : Z * Z;
  cfg_cols : Z * Z;
  cfg_mirrors : Z * Z;
  cfg_portals : Z;
  cfg_distribution : Z * Z * Z * Z;
  cfg_min_bounces : Z
}.

Definition PUZZLE_CONFIG (size : string) : option Config :=
  if String.eqb size "small" then Some (mkConfig (5, 6) (6, 8) (4, 6) 0 (100, 0, 0, 0) 3)
  else if String.eqb size "medium" then Some (mkConfig (7, 9) (9, 12) (7, 10) 0 (100, 0, 0, 0) 5)
  else if String.eqb size "large" then Some (mkConfig (10, 12) (13, 16) (18, 24) 0 (100, 0, 0, 0) 8)
  else if String.eqb size "extreme" then Some (mkConfig (15, 20) (20, 26) (35, 50) 3 (25, 25, 25, 25) 18)
  else None.

Record Puzzle := mkPuzzle {
  p_grid : Grid;
  p_start_row : Z;
  p_ascii : string;
  p_answer_edge : string;
  p_answer_position : ExitPos;
  p_path_length : Z;
  p_bounces : Z;
  p_teleports : Z
}.

(** The [for _ in range(max_attempts)] loop; [None] as a puzzle is
    Python's [None] in [best_puzzle]. *)
Fixpoint trials (fuel : nat) (attempts : nat) (rows cols mirror_count portal_count : Z)
  (mirror_distribution : Z * Z * Z * Z) (min_bounces best_score : Z)
  (best_puzzle : option Puzzle) : M (option Puzzle) :=
  match attempts with
  | O => ret best_puzzle
  | S attempts' =>
      grid <- generate_grid fuel rows cols mirror_count portal_count mirror_distribution ;;
      start_row <- randint 0 (rows - 1) ;;
      match simulate_laser grid start_row DRight with
      | Returned result =>
          let score := r_bounces result + r_teleports result * 2 in
          best <- (if best_score <? score then
                     ascii <- lift (generate_puzzle_ascii grid start_row) ;;
                     ret (score, Some (mkPuzzle grid start_row ascii (r_edge result)
                                         (r_position result)
                                         (Z.of_nat (List.length (r_path result)))
                                         (r_bounces result) (r_teleports result)))
                   else ret (best_score, best_puzzle)) ;;
          let '(best_score', best_puzzle') := best in
          if min_bounces * 2 <=? best_score' then ret best_puzzle'
          else trials fuel attempts' rows cols mirror_count portal_count
                 mirror_distribution min_bounces best_score' best_puzzle'
      | _ => fail
      end
  end.

Definition max_attempts : nat := 100.

Definition generate_puzzle (fuel : nat) (size : string) (min_bounces : option Z) : M (option Puzzle) :=
  config <- lift (PUZZLE_CONFIG size) ;;
  rows <- randint (fst (cfg_rows config)) (snd (cfg_rows config)) ;;
  cols <- randint (fst (cfg_cols config)) (snd (cfg_cols config)) ;;
  mirror_count <- randint (fst (cfg_mirrors config)) (snd (cfg_mirrors config)) ;;
  let portal_count := cfg_portals config in
  let mirror_distribution := cfg_distribution config in
  let min_bounces := match min_bounces with Some m => m | None => cfg_min_bounces config end in
  trials fuel max_attempts rows cols mirror_count portal_count mirror_distribution
    min_bounces 0 None.

End Generator.

(** ** Observables of a trace and sample inputs *)

(** [path] records one entry per turn inside the grid, so the number of
    entries at a position is the number of visits the ray has paid it. *)
Definition visits (p : Pos) (path : list (Z * Z * Direction)) : nat :=
  List.length (filter (fun e => pos_eqb (fst e) p) path).

(** [toggle_state] holds, for each toggle cell already visited, its initial
    state flipped once per visit, and nothing for any other cell. *)
Definition toggle_inv (grid : Grid) (st : State) : Prop :=
  forall q, assoc_get (st_toggle st) q =
    match cell_at grid (fst q) (snd q) with
    | Some cell =>
        if is_toggle cell && negb (Nat.eqb (visits q (st_path st)) 0)
        then Some (xorb (dict_mem TOGGLE_MIRRORS_ON cell) (Nat.odd (visits q (st_path st))))
        else None
    | None => None
    end.

(** [degraded_mirrors] holds exactly the degrading cells already visited. *)
Definition degraded_inv (grid : Grid) (st : State) : Prop :=
  forall q, set_mem (st_degraded st) q =
    match cell_at grid (fst q) (snd q) with
    | Some cell => dict_mem DEGRADING_MIRRORS cell && negb (Nat.eqb (visits q (st_path st)) 0)
    | None => false
    end.

(** Every row as long as the first one. *)
Definition rectangular (grid : Grid) : Prop :=
  forall line, In line grid -> List.length line = Z.to_nat (grid_cols grid).

Definition all_empty (grid : Grid) : Prop :=
  forall line, In line grid -> forall g, In g line -> g = ".".

Definition wide_empty_grid : Grid := repeat (repeat "." 1001) 2.


(** The trace of this one-column grid from row 2 loops for ever: the
    degrading mirror sends the ray up once, and then the portal pair brings
    it back below the broken mirror on every turn. *)
Definition portal_loop_grid : Grid := [["1"]; ["~"]; ["1"]].

(** A random stream for the "small" profile: 6 rows, 6 columns, 5 mirrors;
    in every trial the mirrors go to rows 1..5 of column 0 and the start
    row is 0, so the ray crosses row 0 without a bounce. *)
Definition zero_rng (i : nat) : Z :=
  match i with
  | 0%nat => 1
  | 1%nat => 0
  | 2%nat => 1
  | _ => let j := (Z.of_nat i - 3) mod 16 in
         if j =? 15 then 0
         else if j mod 3 =? 0 then j / 3 + 1 else 0
  end.

Definition count_line (t : string) (line : list string) : nat :=
  list_sum (map (fun g => if String.eqb t g then 1%nat else 0%nat) line).

(** The number of cells of [grid] holding the glyph [t]. *)
Definition count_glyph (grid : Grid) (t : string) : nat :=
  list_sum (map (count_line t) grid).

(** The state after [n] turns of the loop (or the last one before it stopped). *)
Fixpoint iter_next (rows cols : Z) (st : State) (n : nat) : State :=
  match n with
  | O => st
  | S n' =>
      match step rows cols st with
      | Next st' => iter_next rows cols st' n'
      | _ => st
      end
  end.

Definition trace_after (grid : Grid) (start_row : Z) (start_direction : Direction) (n : nat) : State :=
  iter_next (grid_rows grid) (grid_cols grid) (init_state grid start_row start_direction) n.

(** One toggle mirror, starting ON, between the two cells of a portal pair. *)
Definition toggle_loop_grid : Grid := [["1"]; ["[/"]; ["1"]].

Definition portal_pair_grid : Grid := [["1"; "."; "1"]].

Definition small_empty_grid : Grid := [["."; "."]; ["."; "."]].

(** The grid [generate_grid] builds for 3 x 3, one normal mirror and one
    portal pair from the stream of draws 0, 1, 2, ... *)
Definition counting_draw (i : nat) : Z := Z.of_nat i.

Definition counting_grid : Grid := [["."; "/"; "."]; ["."; "."; "1"]; ["1"; "."; "."]].

(** A flipping mirror, initially "/", between the two cells of a portal
    pair: from row 1 the ray meets it a second time, heading up. *)
Definition flip_loop_grid : Grid := [["1"]; ["{/"]; ["1"]].

(** A portal whose id no other cell carries. *)
Definition lone_portal_grid : Grid := [["1"; "."]].

(** Two portal pairs in one column: heading down from row 1, every turn is
    a teleport, 1 -> 3 -> 1 -> ... *)
Definition teleport_cycle_grid : Grid := [["2"]; ["1"]; ["1"]; ["2"]].

(** Plain mirrors only, as test_gemini.py generates them. *)
Definition plain_mirror_grid : Grid := [["."; "\"]; ["/"; "/"]].

(** ** Flipping mirrors along a trace *)

(** [flip_state[pos] = "\\" if current_orientation == "/" else "/"] *)
Definition flip_orient (o : string) : string := if String.eqb o "/" then "\" else "/".

(** [flip_state] holds, for each flipping cell already visited [k] times,
    the glyph's initial orientation flipped [k] times, and nothing for any
    other cell. *)
Definition flip_inv (grid : Grid) (st : State) : Prop :=
  forall q, assoc_get (st_flip st) q =
    match cell_at grid (fst q) (snd q) with
    | Some cell =>
        match dict_get FLIPPING_MIRRORS cell with
        | Some o =>
            if Nat.eqb (visits q (st_path st)) 0 then None
            else Some (Nat.iter (visits q (st_path st)) flip_orient o)
        | None => None
        end
    | None => None
    end.

(** The glyphs that have a branch of their own besides the two plain
    mirrors: degrading, toggle and flipping mirrors, and portals. *)
Definition special (cell : string) : bool :=
  dict_mem DEGRADING_MIRRORS cell || is_toggle cell || dict_mem FLIPPING_MIRRORS cell
  || list_mem PORTAL_CELLS cell.

(** The number of occurrences of character [a] in [s]. *)
Fixpoint count_char (a : ascii) (s : string) : nat :=
  match s with
  | EmptyString => 0%nat
  | String b s' => ((if Ascii.eqb a b then 1 else 0) + count_char a s')%nat
  end.

(** Uppercase letters A..Z. *)
Definition is_upper (a : ascii) : bool :=
  (65 <=? nat_of_ascii a)%nat && (nat_of_ascii a <=? 90)%nat.

(** * scripts/test_gemini.py

    The single-provider script keeps its own copies of the tracer, the grid
    generator and the renderer: a tracer without mirror state or counters,
    a generator placing plain mirrors only, and a renderer padding the row
    number by hand.  [get_next_direction] and [col_to_letter] are the same
    code as in test_all_providers.py and are shared. *)

Module Gemini.

(** The locals of [simulate_laser]: the grid, [path], [row], [col] and
    [direction]. *)
Record State := mkState {
  g_grid : Grid;
  g_path : list (Z * Z * Direction);
  g_row : Z;
  g_col : Z;
  g_dir : Direction
}.

(** [{"path": path, "exit": {"edge": edge, "position": position}}] *)
Record Result := mkResult {
  g_result_path : list (Z * Z * Direction);
  g_edge : string;
  g_position : ExitPos
}.

Inductive Outcome :=
  | Exit (res : Result)
  | Next (st : State)
  | Break (st : State)
  | Crash.

(** One turn of [while True] (lines 72-102). *)
Definition step (rows cols : Z) (st : State) : Outcome :=
  let row := g_row st in
  let col := g_col st in
  let path := g_path st in
  if row <? 0 then Exit (mkResult path "top" (PosCol (col_to_letter (col + 1))))
  else if rows <=? row then Exit (mkResult path "bottom" (PosCol (col_to_letter (col + 1))))
  else if col <? 0 then Exit (mkResult path "left" (PosRow (row + 1)))
  else if cols <=? col then Exit (mkResult path "right" (PosRow (row + 1)))
  else
    let path1 := (path ++ [(row, col, g_dir st)])%list in
    match cell_at (g_grid st) row col with
    | None => Crash
    | Some cell =>
        let direction := if list_mem ["/"; "\"] cell
                         then get_next_direction (g_dir st) cell else g_dir st in
        let '(row', col') := advance direction row col in
        let st' := mkState (g_grid st) path1 row' col' direction in
        if 1000 <? Z.of_nat (List.length path1) then Break st' else Next st'
    end.

Inductive SimResult := Returned (r : Result) | Raised | Diverged.

Fixpoint run (fuel : nat) (rows cols : Z) (st : State) : SimResult :=
  match fuel with
  | O => Diverged
  | S fuel' =>
      match step rows cols st with
      | Exit r => Returned r
      | Crash => Raised
      | Break st' => Returned (mkResult (g_path st') "right" (PosRow 1))
      | Next st' => run fuel' rows cols st'
      end
  end.

Definition simulate_laser (grid : Grid) (start_row : Z) (start_direction : Direction) : SimResult :=
  match grid with
  | [] => Raised
  | _ => run (20 * 1000) (grid_rows grid) (grid_cols grid)
           (mkState grid [] start_row 0 start_direction)
  end.

(** [generate_grid(rows, cols, mirror_count)]: the rejection loop placing
    "/" or "\\" with [random.random() < 0.5]. *)
Definition generate_grid (draw : nat -> Z) (fuel : nat) (rows cols mirror_count : Z) : M Grid :=
  place_loop draw fuel rows cols mirror_count (pick_normal draw) 0
    (repeat (repeat "." (Z.to_nat cols)) (Z.to_nat rows)).

(** [row_num = str(r + 1)], with a space in front when it has one digit. *)
Definition row_label (r : Z) : string :=
  let row_num := str_of_Z (r + 1) in
  if (String.length row_num =? 1)%nat then " " ++ row_num else row_num.

Fixpoint render_rows (rows_left : list (list string)) (r start_row : Z) (cols : nat) : option string :=
  match rows_left with
  | [] => Some EmptyString
  | line :: rest =>
      if (cols <=? List.length line)%nat then
        match render_rows rest (r + 1) start_row cols with
        | None => None
        | Some tail =>
            Some (row_label r ++ "|" ++ (if r =? start_row then ">" else " ")
                  ++ render_cells (firstn cols line) ++ "|" ++ newline ++ tail)
        end
      else None
  end.

Definition generate_puzzle_ascii (grid : Grid) (start_row : Z) : option string :=
  match grid with
  | [] => None
  | first :: _ =>
      let cols := List.length first in
      let border := "  +" ++ str_repeat (cols * 2 + 1) "-" ++ "+" in
      match render_rows grid 0 start_row cols with
      | None => None
      | Some body =>
          Some ("    " ++ header 1 cols ++ newline ++ border ++ newline ++ body ++ border)
      end
  end.

(** [PUZZLE_CONFIG] of test_gemini.py: ranges of rows, columns and mirrors. *)
Record Config := mkConfig {
  cfg_rows : Z * Z;
  cfg_cols : Z * Z;
  cfg_mirrors : Z * Z
}.

Definition PUZZLE_CONFIG (size : string) : option Config :=
  if String.eqb size "small" then Some (mkConfig (5, 6) (6, 8) (4, 6))
  else if String.eqb size "medium" then Some (mkConfig (7, 9) (9, 12) (7, 10))
  else if String.eqb size "large" then Some (mkConfig (10, 12) (13, 16) (12, 16))
  else None.

(** [{"grid": ..., "start_row": ..., "ascii": ..., "answer": result["exit"],
    "path_length": len(result["path"])}] *)
Record Puzzle := mkPuzzle {
  gp_grid : Grid;
  gp_start_row : Z;
  gp_ascii : string;
  gp_answer_edge : string;
  gp_answer_position : ExitPos;
  gp_path_length : Z
}.

Local Notation "x <- m ;; k" := (bind m (fun x => k)) (at level 61, m at next level, right associativity).

(** [generate_puzzle(size)]: one grid, one start row, no scoring; the
    tracer and the renderer raise through it. *)
Definition generate_puzzle (draw : nat -> Z) (fuel : nat) (size : string) : M Puzzle :=
  config <- lift (PUZZLE_CONFIG size) ;;
  rows <- randint draw (fst (cfg_rows config)) (snd (cfg_rows config)) ;;
  cols <- randint draw (fst (cfg_cols config)) (snd (cfg_cols config)) ;;
  mirror_count <- randint draw (fst (cfg_mirrors config)) (snd (cfg_mirrors config)) ;;
  grid <- generate_grid draw fuel rows cols mirror_count ;;
  start_row <- randint draw 0 (rows - 1) ;;
  match simulate_laser grid start_row DRight with
  | Returned result =>
      ascii <- lift (generate_puzzle_ascii grid start_row) ;;
      ret (mkPuzzle grid start_row ascii (g_edge result) (g_position result)
             (Z.of_nat (List.length (g_result_path result))))
  | _ => fail
  end.

End Gemini.

(** A result of the full tracer as the single-provider script reports it:
    path and exit only. *)
Definition project (s : SimResult) : Gemini.SimResult :=
  match s with
  | Returned r => Gemini.Returned (Gemini.mkResult (r_path r) (r_edge r) (r_position r))
  | Raised => Gemini.Raised
  | Diverged => Gemini.Diverged
  end.

(** ** Invariants and predicates used by the properties below *)

(** The entries of a path all lie inside a [rows] x [cols] board. *)
Definition path_inside (rows cols : Z) (path : list (Z * Z * Direction)) : Prop :=
  Forall (fun e => 0 <= fst (fst e) < rows /\ 0 <= snd (fst e) < cols) path.

Definition trace_inv (grid : Grid) (st : State) : Prop :=
  st_grid st = grid /\
  path_inside (grid_rows grid) (grid_cols grid) (st_path st) /\
  0 <= st_bounces st /\ 0 <= st_teleports st /\
  st_bounces st + st_teleports st <= Z.of_nat (List.length (st_path st)) /\
  ((0 <= st_row st < grid_rows grid /\ -1 <= st_col st <= grid_cols grid) \/
   0 <= st_col st < grid_cols grid \/ st_col st = 0).

Definition gemini_rel (gs : Gemini.State) (st : State) : Prop :=
  Gemini.g_grid gs = st_grid st /\ Gemini.g_path gs = st_path st /\
  Gemini.g_row gs = st_row st /\ Gemini.g_col gs = st_col st /\ Gemini.g_dir gs = st_dir st.

Definition grid_shape (rows cols : nat) (grid : Grid) : Prop :=
  List.length grid = rows /\ forall line, In line grid -> List.length line = cols.

(** The answer key of a puzzle is the tracer's verdict on its grid and
    start row, and its text is the rendering of that grid. *)
Definition answer_key_ok (p : Puzzle) : Prop :=
  exists r, simulate_laser (p_grid p) (p_start_row p) DRight = Returned r /\
    p_answer_edge p = r_edge r /\ p_answer_position p = r_position r /\
    p_path_length p = Z.of_nat (List.length (r_path r)) /\
    p_bounces p = r_bounces r /\ p_teleports p = r_teleports r /\
    generate_puzzle_ascii (p_grid p) (p_start_row p) = Some (p_ascii p).

Definition trial_ok (rows cols : Z) (p : Puzzle) : Prop :=
  answer_key_ok p /\ 0 < p_bounces p + p_teleports p * 2 /\
  0 <= p_start_row p <= rows - 1 /\ grid_shape (Z.to_nat rows) (Z.to_nat cols) (p_grid p).

Definition gt_char : ascii := ascii_of_nat 62.

(** * Properties *)

(** ** Glyph tables and association lists *)

Lemma list_mem_In (l : list string) (k : string) : list_mem l k = true -> In k l.
Proof.
  unfold list_mem; intros H.
  apply existsb_exists in H as [x [Hx Hk]].
  apply String.eqb_eq in Hk; subst; exact Hx.
Qed.

Lemma dict_mem_In (d : list (string * string)) (k : string) :
  dict_mem d k = true -> In k (map fst d).
Proof.
  unfold dict_mem; induction d as [|[k' v] d IH]; simpl; [discriminate|].
  destruct (String.eqb_spec k k') as [->|_]; auto.
Qed.

(** A glyph known to belong to a table is one of its keys. *)
Ltac glyph_of H :=
  first [apply list_mem_In in H | apply dict_mem_In in H];
  simpl in H; intuition (subst; auto).

Lemma pos_eqb_eq (p q : Pos) : pos_eqb p q = true <-> p = q.
Proof.
  destruct p as [a b], q as [c d]; unfold pos_eqb; simpl.
  rewrite andb_true_iff, !Z.eqb_eq; split.
  - intros [-> ->]; reflexivity.
  - intros H; inversion H; auto.
Qed.

Lemma pos_eqb_refl (p : Pos) : pos_eqb p p = true.
Proof. apply pos_eqb_eq; reflexivity. Qed.

Lemma pos_eqb_sym (p q : Pos) : pos_eqb p q = pos_eqb q p.
Proof.
  destruct (pos_eqb p q) eqn:E, (pos_eqb q p) eqn:F; auto.
  - apply pos_eqb_eq in E; subst; rewrite pos_eqb_refl in F; discriminate.
  - apply pos_eqb_eq in F; subst; rewrite pos_eqb_refl in E; discriminate.
Qed.

Lemma assoc_get_set {V} (d : list (Pos * V)) (p q : Pos) (v : V) :
  assoc_get (assoc_set d p v) q = if pos_eqb p q then Some v else assoc_get d q.
Proof.
  induction d as [|[k w] d IH]; simpl.
  - rewrite pos_eqb_sym; reflexivity.
  - destruct (pos_eqb k p) eqn:E; simpl.
    + apply pos_eqb_eq in E; subst k; destruct (pos_eqb p q); reflexivity.
    + rewrite IH; destruct (pos_eqb k q) eqn:F, (pos_eqb p q) eqn:G; auto.
      apply pos_eqb_eq in F; apply pos_eqb_eq in G; subst.
      rewrite pos_eqb_refl in E; discriminate.
Qed.

Lemma set_mem_add (s : list Pos) (p q : Pos) :
  set_mem (set_add s p) q = set_mem s q || pos_eqb p q.
Proof.
  unfold set_add; destruct (set_mem s p) eqn:E.
  - destruct (pos_eqb p q) eqn:F; [|rewrite orb_false_r; reflexivity].
    apply pos_eqb_eq in F; subst; rewrite E; reflexivity.
  - unfold set_mem; rewrite existsb_app; simpl.
    rewrite pos_eqb_sym, orb_false_r; reflexivity.
Qed.

(** ** One turn of the loop *)

Lemma step_inside (rows cols : Z) (st st' : State) :
  step rows cols st = Next st' \/ step rows cols st = Break st' ->
  (0 <= st_row st < rows /\ 0 <= st_col st < cols) /\
  exists cell st2 b,
    cell_at (st_grid st) (st_row st) (st_col st) = Some cell /\
    process (record st) cell = Some (st2, b) /\
    st' = (if b then st2 else move st2).
Proof.
  unfold step; intros H.
  destruct (st_row st <? 0) eqn:E1; [destruct H; discriminate|].
  destruct (rows <=? st_row st) eqn:E2; [destruct H; discriminate|].
  destruct (st_col st <? 0) eqn:E3; [destruct H; discriminate|].
  destruct (cols <=? st_col st) eqn:E4; [destruct H; discriminate|].
  apply Z.ltb_ge in E1, E3; apply Z.leb_gt in E2, E4.
  split; [lia|].
  simpl in H.
  destruct (cell_at (st_grid st) (st_row st) (st_col st)) as [cell|] eqn:E5;
    [|destruct H; discriminate].
  destruct (process (record st) cell) as [[st2 [|]]|] eqn:E6;
    [| |destruct H; discriminate].
  - destruct H as [H|H]; inversion H; subst; eauto 6.
  - destruct (1000 <? _); destruct H as [H|H]; inversion H; subst; eauto 6.
Qed.

Ltac split_process H :=
  unfold process in H; cbv zeta in H;
  repeat match type of H with
  | context [if ?c then _ else _] => destruct c eqn:?
  | context [match ?x with _ => _ end] => destruct x eqn:?
  end;
  inversion H; subst; clear H; simpl.

Lemma process_frame (st st2 : State) (cell : string) (b : bool) :
  process st cell = Some (st2, b) ->
  st_grid st2 = st_grid st /\ st_path st2 = st_path st.
Proof. intros H; split_process H; auto. Qed.

Lemma step_frame (rows cols : Z) (st st' : State) :
  step rows cols st = Next st' \/ step rows cols st = Break st' ->
  st_grid st' = st_grid st /\
  st_path st' = (st_path st ++ [(st_row st, st_col st, st_dir st)])%list.
Proof.
  intros H; apply step_inside in H as [_ [cell [st2 [b [_ [Hp ->]]]]]].
  apply process_frame in Hp as [Hg Hpath].
  destruct b; [|unfold move; destruct (advance _ _ _)]; simpl; rewrite ?Hg, ?Hpath; auto.
Qed.

(** ** C5: the reflection law *)

(** C5: [get_next_direction] maps Slash as Right->Up, Left->Down, Up->Right,
    Down->Left and Backslash as Right->Down, Left->Up, Up->Left, Down->Right. *)
Theorem get_next_direction_table :
  get_next_direction DRight "/" = DUp /\ get_next_direction DLeft "/" = DDown /\
  get_next_direction DUp "/" = DRight /\ get_next_direction DDown "/" = DLeft /\
  get_next_direction DRight "\" = DDown /\ get_next_direction DLeft "\" = DUp /\
  get_next_direction DUp "\" = DLeft /\ get_next_direction DDown "\" = DRight.
Proof. repeat split. Qed.

(** ** C10: the grid is never written *)

(** C10: every state the loop of [simulate_laser] reaches, and the state a
    [break] leaves, still holds the very grid the call was given. *)
Theorem simulate_laser_grid_unchanged (grid : Grid) (start_row : Z)
  (start_direction : Direction) (rows cols : Z) (st : State) :
  reachable rows cols (init_state grid start_row start_direction) st ->
  st_grid st = grid /\
  (forall st', step rows cols st = Break st' -> st_grid st' = grid).
Proof.
  intros R.
  assert (G : st_grid st = grid).
  { induction R as [|st st' R IH Hs]; [reflexivity|].
    rewrite <- IH; apply (step_frame rows cols); auto. }
  split; [exact G|].
  intros st' Hs; rewrite <- G; apply (step_frame rows cols); auto.
Qed.

(** ** C3: the initial ray state *)

(** C3 (as the code has it): the ray starts in column 0 of row [start_row],
    with [start_direction], zero counters, an empty path and empty mirror
    state; inside the grid the first boundary check passes and the first
    turn records [(start_row, 0, start_direction)]. *)
Theorem init_state_start_column (grid : Grid) (start_row : Z) (start_direction : Direction)
  (rows cols : Z) :
  0 <= start_row < rows -> 0 < cols ->
  let st := init_state grid start_row start_direction in
  st_row st = start_row /\ st_col st = 0 /\ st_dir st = start_direction /\
  st_bounces st = 0 /\ st_teleports st = 0 /\ st_path st = [] /\
  st_degraded st = [] /\ st_toggle st = [] /\ st_flip st = [] /\
  (forall res, step rows cols st <> Exit res) /\
  (forall st', step rows cols st = Next st' \/ step rows cols st = Break st' ->
               st_path st' = [(start_row, 0, start_direction)]).
Proof.
  intros Hr Hc st; subst st.
  repeat split; auto.
  - unfold step; simpl.
    destruct (start_row <? 0) eqn:E1; [apply Z.ltb_lt in E1; lia|].
    destruct (rows <=? start_row) eqn:E2; [apply Z.leb_le in E2; lia|].
    destruct (cols <=? 0) eqn:E4; [apply Z.leb_le in E4; lia|].
    intros res.
    destruct (cell_at grid start_row 0); [|discriminate].
    destruct (process _ _) as [[st2 [|]]|]; [discriminate| |discriminate].
    destruct (1000 <? _); discriminate.
  - intros st' Hs; apply step_frame in Hs as [_ ->]; reflexivity.
Qed.

(** C3 as stated fails: before the first boundary check the ray is in
    column 0, not column -1, and the first turn records the cell
    [(start_row, 0)] instead of leaving through the left edge. *)
Lemma init_state_not_left_of_grid :
  st_col (init_state [["."]] 0 DRight) <> -1 /\
  (exists r, simulate_laser [["."]] 0 DRight = Returned r /\
             r_path r = [(0, 0, DRight)] /\ r_edge r = "right").
Proof.
  split; [discriminate|].
  eexists; split; [vm_compute; reflexivity|]; split; reflexivity.
Qed.

(** ** Effect of the mirror branches *)

(** The toggle branch: reflect iff the current on-state (stored, or the
    glyph's initial one on a first visit) is true, then store its negation. *)
Lemma process_toggle (st st2 : State) (cell : string) (b : bool) :
  is_toggle cell = true -> process st cell = Some (st2, b) ->
  let pos := (st_row st, st_col st) in
  let on := match assoc_get (st_toggle st) pos with
            | Some o => o | None => dict_mem TOGGLE_MIRRORS_ON cell end in
  b = false /\ st_row st2 = st_row st /\ st_col st2 = st_col st /\
  st_teleports st2 = st_teleports st /\
  st_dir st2 = (if on then get_next_direction (st_dir st) (toggle_mirror_type cell)
                else st_dir st) /\
  st_bounces st2 = st_bounces st + (if on then 1 else 0) /\
  (forall q, assoc_get (st_toggle st2) q =
             if pos_eqb pos q then Some (negb on) else assoc_get (st_toggle st) q).
Proof.
  intros Ht H pos on.
  assert (Hcell : cell = "[/" \/ cell = "[\" \/ cell = "]/" \/ cell = "]\").
  { unfold is_toggle in Ht; apply orb_true_iff in Ht as [Ht|Ht]; glyph_of Ht. }
  assert (Hon : assoc_get (if negb (assoc_mem (st_toggle st) pos)
                           then assoc_set (st_toggle st) pos (dict_mem TOGGLE_MIRRORS_ON cell)
                           else st_toggle st) pos = Some on).
  { unfold on, assoc_mem; destruct (assoc_get (st_toggle st) pos) eqn:E; simpl.
    - exact E.
    - rewrite assoc_get_set, pos_eqb_refl; reflexivity. }
  assert (Hq : forall q, assoc_get (assoc_set (if negb (assoc_mem (st_toggle st) pos)
                           then assoc_set (st_toggle st) pos (dict_mem TOGGLE_MIRRORS_ON cell)
                           else st_toggle st) pos (negb on)) q =
                 if pos_eqb pos q then Some (negb on) else assoc_get (st_toggle st) q).
  { intros q; rewrite assoc_get_set.
    destruct (pos_eqb pos q) eqn:F; [reflexivity|].
    destruct (negb (assoc_mem _ _)); [rewrite assoc_get_set, F|]; reflexivity. }
  destruct Hcell as [-> | [-> | [-> | ->]]]; unfold process in H; simpl in H;
    fold pos in H, Hon, Hq; rewrite Hon in H;
    destruct on; inversion H; subst; simpl; repeat split; auto; lia.
Qed.

(** Outside the toggle branch the toggle table is untouched. *)
Lemma process_toggle_other (st st2 : State) (cell : string) (b : bool) :
  is_toggle cell = false -> process st cell = Some (st2, b) ->
  st_toggle st2 = st_toggle st.
Proof. intros Ht H; split_process H; congruence. Qed.

(** The degrading branch: reflect iff the position is not yet in
    [degraded_mirrors], and add it. *)
Lemma process_degrading (st st2 : State) (cell : string) (b : bool) :
  dict_mem DEGRADING_MIRRORS cell = true -> process st cell = Some (st2, b) ->
  let pos := (st_row st, st_col st) in
  exists mirror_type, dict_get DEGRADING_MIRRORS cell = Some mirror_type /\
  b = false /\ st_row st2 = st_row st /\ st_col st2 = st_col st /\
  st_teleports st2 = st_teleports st /\
  (set_mem (st_degraded st) pos = false ->
     st_dir st2 = get_next_direction (st_dir st) mirror_type /\
     st_bounces st2 = st_bounces st + 1) /\
  (set_mem (st_degraded st) pos = true ->
     st_dir st2 = st_dir st /\ st_bounces st2 = st_bounces st) /\
  (forall q, set_mem (st_degraded st2) q = set_mem (st_degraded st) q || pos_eqb pos q).
Proof.
  intros Hd H pos.
  assert (Hcell : cell = "~" \/ cell = "`") by (glyph_of Hd).
  assert (Hadd : forall q, set_mem (set_add (st_degraded st) pos) q =
                           set_mem (st_degraded st) q || pos_eqb pos q)
    by (intros q; apply set_mem_add).
  assert (Hkeep : set_mem (st_degraded st) pos = true -> forall q,
            set_mem (st_degraded st) q = set_mem (st_degraded st) q || pos_eqb pos q).
  { intros E q; destruct (pos_eqb pos q) eqn:F; [|rewrite orb_false_r; reflexivity].
    apply pos_eqb_eq in F; subst q; rewrite E; reflexivity. }
  destruct Hcell as [Hc | Hc]; subst cell; unfold process in H; simpl in H; fold pos in H;
    eexists; (split; [reflexivity|]);
    destruct (set_mem (st_degraded st) pos) eqn:E; simpl in H;
    inversion H; subst; simpl;
    (split; [reflexivity|]); (split; [reflexivity|]); (split; [reflexivity|]);
    (split; [reflexivity|]);
    (split; [intros; first [discriminate | split; reflexivity]|]);
    (split; [intros; first [discriminate | split; [reflexivity | lia]]|]);
    auto.
Qed.

Lemma process_degrading_other (st st2 : State) (cell : string) (b : bool) :
  dict_mem DEGRADING_MIRRORS cell = false -> process st cell = Some (st2, b) ->
  st_degraded st2 = st_degraded st.
Proof. intros Hd H; split_process H; congruence. Qed.

(** ** Mirror state along a trace *)

Lemma visits_step (rows cols : Z) (st st' : State) (q : Pos) :
  step rows cols st = Next st' \/ step rows cols st = Break st' ->
  visits q (st_path st') =
    (visits q (st_path st) + if pos_eqb (st_row st, st_col st) q then 1 else 0)%nat.
Proof.
  intros H; apply step_frame in H as [_ ->].
  unfold visits; rewrite filter_app, length_app; simpl.
  destruct (pos_eqb (st_row st, st_col st) q); reflexivity.
Qed.

Lemma step_tables (rows cols : Z) (st st' : State) :
  step rows cols st = Next st' \/ step rows cols st = Break st' ->
  exists cell st2 b,
    cell_at (st_grid st) (st_row st) (st_col st) = Some cell /\
    process (record st) cell = Some (st2, b) /\
    st_toggle st' = st_toggle st2 /\ st_degraded st' = st_degraded st2 /\
    st_dir st' = st_dir st2 /\ st_bounces st' = st_bounces st2 /\
    st_teleports st' = st_teleports st2.
Proof.
  intros H; apply step_inside in H as [_ [cell [st2 [b [Hc [Hp ->]]]]]].
  exists cell, st2, b; repeat split; auto;
    destruct b; try reflexivity; unfold move; destruct (advance _ _ _); reflexivity.
Qed.

Lemma odd_succ_negb (n : nat) : Nat.odd (S n) = negb (Nat.odd n).
Proof. rewrite Nat.odd_succ, <- Nat.negb_odd; reflexivity. Qed.

Lemma reachable_mirror_state (grid : Grid) (start_row : Z) (start_direction : Direction)
  (rows cols : Z) (st : State) :
  reachable rows cols (init_state grid start_row start_direction) st ->
  st_grid st = grid /\ toggle_inv grid st /\ degraded_inv grid st.
Proof.
  intros R; induction R as [|st st' R IH Hs].
  - split; [reflexivity|]; split; intros q; simpl;
      destruct (cell_at grid (fst q) (snd q)); rewrite ?andb_false_r; reflexivity.
  - destruct IH as [G [T D]].
    assert (Hs' : step rows cols st = Next st' \/ step rows cols st = Break st') by auto.
    pose proof (step_frame _ _ _ _ Hs') as [G' _].
    pose proof (fun q => visits_step _ _ _ _ q Hs') as V.
    destruct (step_tables _ _ _ _ Hs') as [cell [st2 [b [Hc [Hp [Ht [Hd _]]]]]]].
    rewrite G in Hc.
    split; [congruence|]; split; intros q; rewrite (V q).
    + rewrite Ht.
      destruct (is_toggle cell) eqn:E.
      * pose proof (process_toggle _ _ _ _ E Hp) as [_ [_ [_ [_ [_ [_ Hq]]]]]].
        simpl in Hq; rewrite Hq.
        destruct (pos_eqb (st_row st, st_col st) q) eqn:F.
        -- apply pos_eqb_eq in F; subst q; simpl; rewrite Hc, E.
           specialize (T (st_row st, st_col st)); simpl in T; rewrite Hc, E in T.
           rewrite T; simpl.
           rewrite Nat.add_1_r, odd_succ_negb.
           destruct (visits _ _); simpl;
             destruct (dict_mem TOGGLE_MIRRORS_ON cell), (Nat.odd _); reflexivity.
        -- rewrite Nat.add_0_r; apply T.
      * rewrite (process_toggle_other _ _ _ _ E Hp); simpl.
        destruct (pos_eqb (st_row st, st_col st) q) eqn:F.
        -- apply pos_eqb_eq in F; subst q.
           specialize (T (st_row st, st_col st)); simpl in T |- *; rewrite Hc, E in T |- *.
           exact T.
        -- rewrite Nat.add_0_r; apply T.
    + rewrite Hd.
      destruct (dict_mem DEGRADING_MIRRORS cell) eqn:E.
      * pose proof (process_degrading _ _ _ _ E Hp) as [m [_ [_ [_ [_ [_ [_ [_ Hq]]]]]]]].
        simpl in Hq; rewrite Hq.
        destruct (pos_eqb (st_row st, st_col st) q) eqn:F.
        -- apply pos_eqb_eq in F; subst q; simpl; rewrite Hc, E, orb_true_r.
           rewrite Nat.add_1_r; reflexivity.
        -- rewrite orb_false_r, Nat.add_0_r; apply D.
      * rewrite (process_degrading_other _ _ _ _ E Hp); simpl.
        destruct (pos_eqb (st_row st, st_col st) q) eqn:F.
        -- apply pos_eqb_eq in F; subst q.
           specialize (D (st_row st, st_col st)); simpl in D |- *; rewrite Hc, E in D |- *.
           exact D.
        -- rewrite Nat.add_0_r; apply D.
Qed.

(** ** C6: toggle mirrors *)

(** C6: on a turn at a toggle cell the ray is reflected (one more bounce)
    exactly when the cell's current on-state is true; that state is the
    glyph's initial one flipped once per earlier visit, and the turn stores
    its negation.  A cell starting ON thus reflects on odd-numbered visits. *)
Theorem toggle_mirror_visits (grid : Grid) (start_row : Z) (start_direction : Direction)
  (rows cols : Z) (st st' : State) (cell : string) :
  reachable rows cols (init_state grid start_row start_direction) st ->
  step rows cols st = Next st' \/ step rows cols st = Break st' ->
  cell_at grid (st_row st) (st_col st) = Some cell ->
  is_toggle cell = true ->
  let k := visits (st_row st, st_col st) (st_path st) in
  let on := xorb (dict_mem TOGGLE_MIRRORS_ON cell) (Nat.odd k) in
  on = match assoc_get (st_toggle st) (st_row st, st_col st) with
       | Some o => o | None => dict_mem TOGGLE_MIRRORS_ON cell end /\
  st_dir st' = (if on then get_next_direction (st_dir st) (toggle_mirror_type cell)
                else st_dir st) /\
  st_bounces st' = st_bounces st + (if on then 1 else 0) /\
  assoc_get (st_toggle st') (st_row st, st_col st) = Some (negb on) /\
  (dict_mem TOGGLE_MIRRORS_ON cell = true -> on = Nat.odd (S k)).
Proof.
  intros R Hs Hc Ht k on.
  destruct (reachable_mirror_state _ _ _ _ _ _ R) as [G [T _]].
  destruct (step_tables _ _ _ _ Hs) as [cell' [st2 [b [Hc' [Hp [Et [_ [Ed [Eb _]]]]]]]]].
  rewrite G, Hc in Hc'; inversion Hc'; subst cell'; clear Hc'.
  assert (Hon : on = match assoc_get (st_toggle st) (st_row st, st_col st) with
                     | Some o => o | None => dict_mem TOGGLE_MIRRORS_ON cell end).
  { specialize (T (st_row st, st_col st)); simpl in T; rewrite Hc, Ht in T.
    rewrite T; unfold on; fold k; destruct k; simpl;
      [destruct (dict_mem TOGGLE_MIRRORS_ON cell)|]; reflexivity. }
  pose proof (process_toggle _ _ _ _ Ht Hp) as [_ [_ [_ [_ [Hd [Hb Hq]]]]]].
  simpl in Hd, Hb, Hq; rewrite <- Hon in Hd, Hb, Hq.
  split; [exact Hon|]; split; [congruence|]; split; [congruence|]; split.
  - rewrite Et, Hq, pos_eqb_refl; reflexivity.
  - intros Hin; unfold on; rewrite Hin, odd_succ_negb; reflexivity.
Qed.

(** ** C7: degrading mirrors *)

(** C7: on a turn at a degrading cell the ray is reflected, with one more
    bounce, on the cell's first visit; on every later visit direction and
    bounce count are left as they were. *)
Theorem degrading_mirror_first_visit (grid : Grid) (start_row : Z) (start_direction : Direction)
  (rows cols : Z) (st st' : State) (cell : string) :
  reachable rows cols (init_state grid start_row start_direction) st ->
  step rows cols st = Next st' \/ step rows cols st = Break st' ->
  cell_at grid (st_row st) (st_col st) = Some cell ->
  dict_mem DEGRADING_MIRRORS cell = true ->
  exists mirror_type, dict_get DEGRADING_MIRRORS cell = Some mirror_type /\
  (visits (st_row st, st_col st) (st_path st) = 0%nat ->
     st_dir st' = get_next_direction (st_dir st) mirror_type /\
     st_bounces st' = st_bounces st + 1) /\
  (visits (st_row st, st_col st) (st_path st) <> 0%nat ->
     st_dir st' = st_dir st /\ st_bounces st' = st_bounces st).
Proof.
  intros R Hs Hc Hdm.
  destruct (reachable_mirror_state _ _ _ _ _ _ R) as [G [_ D]].
  destruct (step_tables _ _ _ _ Hs) as [cell' [st2 [b [Hc' [Hp [_ [_ [Ed [Eb _]]]]]]]]].
  rewrite G, Hc in Hc'; inversion Hc'; subst cell'; clear Hc'.
  specialize (D (st_row st, st_col st)); simpl in D; rewrite Hc, Hdm in D; simpl in D.
  destruct (process_degrading _ _ _ _ Hdm Hp)
    as [m [Hm [_ [_ [_ [_ [Hfirst [Hlater _]]]]]]]].
  simpl in Hfirst, Hlater.
  exists m; split; [exact Hm|]; split; intros Hk.
  - rewrite Hk in D; simpl in D; destruct (Hfirst D); split; congruence.
  - destruct (visits _ _); [contradiction|]; simpl in D.
    destruct (Hlater D); split; congruence.
Qed.

(** ** C4: portals *)

Lemma range_find_some {A} (i : Z) (n : nat) (f : Z -> option (option A)) (a : A) :
  range_find i n f = Some (Some a) -> exists j, f j = Some (Some a).
Proof.
  revert i; induction n as [|n IH]; intros i; simpl; [discriminate|].
  destruct (f i) as [[a'|]|] eqn:E; intros H; try discriminate.
  - inversion H; subst; eauto.
  - eapply IH; eauto.
Qed.

Lemma range_find_none {A} (i : Z) (n : nat) (f : Z -> option (option A)) :
  (forall j, i <= j < i + Z.of_nat n -> f j = Some None) -> range_find i n f = Some None.
Proof.
  revert i; induction n as [|n IH]; intros i H; simpl; [reflexivity|].
  rewrite H by lia; apply IH; intros j Hj; apply H; lia.
Qed.

(** The cell [find_portal_exit] returns carries the same id at another position. *)
Lemma find_portal_exit_sound (grid : Grid) (ch : string) (er ec r c : Z) :
  find_portal_exit grid ch er ec = Some (Some (r, c)) ->
  cell_at grid r c = Some ch /\ (r, c) <> (er, ec).
Proof.
  unfold find_portal_exit; destruct grid as [|first rest]; [discriminate|].
  intros H; apply range_find_some in H as [r' H]; apply range_find_some in H as [c' H].
  destruct (cell_at _ r' c') as [g|] eqn:E; [|discriminate].
  destruct (String.eqb g ch && negb ((r' =? er) && (c' =? ec))) eqn:F; [|discriminate].
  inversion H; subst r' c'; clear H.
  apply andb_true_iff in F as [F1 F2]; apply String.eqb_eq in F1; subst g.
  split; [exact E|].
  intros Heq; inversion Heq; subst; rewrite !Z.eqb_refl in F2; discriminate.
Qed.

(** On a rectangular grid where no other cell carries the id, the scan
    finds nothing. *)
Lemma find_portal_exit_none (grid : Grid) (ch : string) (er ec : Z) :
  grid <> [] -> rectangular grid ->
  (forall r c, 0 <= r -> 0 <= c -> cell_at grid r c = Some ch -> (r, c) = (er, ec)) ->
  find_portal_exit grid ch er ec = Some None.
Proof.
  intros Hne Hrect Hone.
  destruct grid as [|first rest] eqn:Eg; [contradiction|]; rewrite <- Eg in *.
  unfold find_portal_exit; rewrite Eg; rewrite <- Eg.
  apply range_find_none; intros r Hr; apply range_find_none; intros c Hc.
  assert (Hline : exists line, nth_error grid (Z.to_nat r) = Some line).
  { destruct (nth_error grid (Z.to_nat r)) eqn:E; [eauto|].
    apply nth_error_None in E; subst grid; simpl in *; lia. }
  destruct Hline as [line Hl].
  assert (Hlen : List.length line = Z.to_nat (grid_cols grid)).
  { apply Hrect; eapply nth_error_In; eauto. }
  assert (Hcell : exists g, cell_at grid r c = Some g).
  { unfold cell_at; rewrite Hl.
    destruct (nth_error line (Z.to_nat c)) eqn:E; [eauto|].
    apply nth_error_None in E; subst grid; simpl in *; lia. }
  destruct Hcell as [g Hg]; rewrite Hg.
  destruct (String.eqb g ch) eqn:F; [|reflexivity].
  apply String.eqb_eq in F; subst g.
  assert (Heq : (r, c) = (er, ec)) by (apply Hone; auto; lia).
  inversion Heq; subst; rewrite !Z.eqb_refl; reflexivity.
Qed.

Lemma range_find_bound {A} (i : Z) (n : nat) (f : Z -> option (option A)) (a : A) :
  range_find i n f = Some (Some a) ->
  exists j, i <= j < i + Z.of_nat n /\ f j = Some (Some a) /\
    (forall j', i <= j' < j -> f j' = Some None).
Proof.
  revert i; induction n as [|n IH]; intros i; simpl; [discriminate|].
  destruct (f i) as [[a'|]|] eqn:E; intros H; try discriminate.
  - inversion H; subst; exists i; repeat split; auto; lia.
  - destruct (IH (i + 1) H) as [j [Hj [Hf Hbefore]]].
    exists j; repeat split; auto; try lia.
    intros j' Hj'; destruct (Z.eq_dec j' i) as [->|Ne]; auto; apply Hbefore; lia.
Qed.

Lemma find_portal_exit_bounds (grid : Grid) (ch : string) (er ec r c : Z) :
  find_portal_exit grid ch er ec = Some (Some (r, c)) ->
  0 <= r < grid_rows grid /\ 0 <= c < grid_cols grid.
Proof.
  unfold find_portal_exit, grid_rows, grid_cols; destruct grid as [|first rest]; [discriminate|].
  intros H; apply range_find_bound in H as [r' [Hr [H _]]].
  apply range_find_bound in H as [c' [Hc [H _]]].
  destruct (cell_at _ r' c'); [|discriminate].
  destruct (_ && _); inversion H; subst; lia.
Qed.

Lemma range_find_defined {A} (i : Z) (n : nat) (f : Z -> option (option A)) :
  (forall j, i <= j < i + Z.of_nat n -> f j <> None) -> range_find i n f <> None.
Proof.
  revert i; induction n as [|n IH]; intros i H; simpl; [discriminate|].
  destruct (f i) as [[a|]|] eqn:E; [discriminate| |].
  - apply IH; intros j Hj; apply H; lia.
  - exfalso; apply (H i); [lia|exact E].
Qed.

Lemma range_find_hit {A} (i : Z) (n : nat) (f : Z -> option (option A)) (j : Z) (a : A) :
  (forall k, i <= k < i + Z.of_nat n -> f k <> None) ->
  i <= j < i + Z.of_nat n -> f j = Some (Some a) ->
  exists b, range_find i n f = Some (Some b).
Proof.
  revert i; induction n as [|n IH]; intros i H Hj Hf; simpl; [lia|].
  destruct (f i) as [[b|]|] eqn:E; [eauto| |].
  - apply IH; [intros k Hk; apply H; lia| |exact Hf].
    destruct (Z.eq_dec j i) as [->|Ne]; [congruence|lia].
  - exfalso; apply (H i); [lia|exact E].
Qed.

Lemma cell_at_defined (grid : Grid) (r c : Z) :
  rectangular grid -> 0 <= r < grid_rows grid -> 0 <= c < grid_cols grid ->
  exists g, cell_at grid r c = Some g.
Proof.
  intros Hrect Hr Hc; unfold cell_at, grid_rows in *.
  destruct (nth_error grid (Z.to_nat r)) as [line|] eqn:E.
  - pose proof (Hrect line (nth_error_In _ _ E)) as Hlen.
    destruct (nth_error line (Z.to_nat c)) as [g|] eqn:F; [eauto|].
    apply nth_error_None in F; lia.
  - apply nth_error_None in E; lia.
Qed.

Lemma cell_at_bounds (grid : Grid) (r c : Z) (g : string) :
  rectangular grid -> 0 <= r -> 0 <= c -> cell_at grid r c = Some g ->
  r < grid_rows grid /\ c < grid_cols grid.
Proof.
  intros Hrect Hr Hc; unfold cell_at, grid_rows.
  destruct (nth_error grid (Z.to_nat r)) as [line|] eqn:E; [|discriminate].
  intros F.
  pose proof (Hrect line (nth_error_In _ _ E)) as Hlen.
  assert (Z.to_nat r < List.length grid)%nat by (apply nth_error_Some; congruence).
  assert (Z.to_nat c < List.length line)%nat by (apply nth_error_Some; congruence).
  lia.
Qed.

(** When another cell of a rectangular grid carries the id, the scan finds one. *)
Lemma find_portal_exit_found (grid : Grid) (ch : string) (er ec pr pc : Z) :
  rectangular grid -> 0 <= pr -> 0 <= pc ->
  cell_at grid pr pc = Some ch -> (pr, pc) <> (er, ec) ->
  exists r c, find_portal_exit grid ch er ec = Some (Some (r, c)).
Proof.
  intros Hrect Hpr Hpc Hp Hne.
  destruct (cell_at_bounds _ _ _ _ Hrect Hpr Hpc Hp) as [Hr Hc].
  assert (Hin : forall r, 0 <= r < grid_rows grid ->
    forall c, 0 <= c < grid_cols grid ->
    match cell_at grid r c with
    | None => None
    | Some g => if String.eqb g ch && negb ((r =? er) && (c =? ec))
                then Some (Some (r, c)) else Some None
    end <> None).
  { intros r Hr' c Hc'; destruct (cell_at_defined grid r c Hrect Hr' Hc') as [g ->].
    destruct (_ && _); discriminate. }
  assert (Hhit : match cell_at grid pr pc with
    | None => None
    | Some g => if String.eqb g ch && negb ((pr =? er) && (pc =? ec))
                then Some (Some (pr, pc)) else Some None
    end = Some (Some (pr, pc))).
  { rewrite Hp, String.eqb_refl; simpl.
    destruct ((pr =? er) && (pc =? ec)) eqn:E; [|reflexivity].
    apply andb_true_iff in E as [E1 E2]; apply Z.eqb_eq in E1, E2; subst; contradiction. }
  destruct grid as [|first rest]; [unfold cell_at in Hp; destruct (Z.to_nat pr); discriminate|].
  unfold grid_rows, grid_cols in *; unfold find_portal_exit.
  set (f := fun r c => match cell_at (first :: rest) r c with
    | None => None
    | Some g => if String.eqb g ch && negb ((r =? er) && (c =? ec))
                then Some (Some (r, c)) else Some None
    end).
  set (ncols := Z.to_nat (Z.of_nat (List.length first))).
  destruct (range_find_hit 0 ncols (f pr) pc (pr, pc)) as [b Hb];
    [intros k Hk; apply Hin; lia | lia | exact Hhit |].
  destruct (range_find_hit 0 (Z.to_nat (Z.of_nat (List.length (first :: rest))))
              (fun r => range_find 0 ncols (f r)) pr b) as [[r c] H];
    [| lia | exact Hb | exists r, c; exact H].
  intros k Hk; apply range_find_defined; intros j Hj; apply Hin; lia.
Qed.

(** A turn inside the grid is the [if/elif] chain on the cell, followed by
    the move and the ceiling check unless a portal ran [continue]. *)
Lemma step_at_cell (rows cols : Z) (st : State) (cell : string) :
  0 <= st_row st < rows -> 0 <= st_col st < cols ->
  cell_at (st_grid st) (st_row st) (st_col st) = Some cell ->
  step rows cols st =
    match process (record st) cell with
    | None => Crash
    | Some (st2, true) => Next st2
    | Some (st2, false) =>
        if 1000 <? Z.of_nat (List.length (st_path (move st2))) then Break (move st2)
        else Next (move st2)
    end.
Proof.
  intros Hr Hc Hcell; unfold step.
  replace (st_row st <? 0) with false by (symmetry; apply Z.ltb_ge; lia).
  replace (rows <=? st_row st) with false by (symmetry; apply Z.leb_gt; lia).
  replace (st_col st <? 0) with false by (symmetry; apply Z.ltb_ge; lia).
  replace (cols <=? st_col st) with false by (symmetry; apply Z.leb_gt; lia).
  simpl; rewrite Hcell; reflexivity.
Qed.

Lemma process_portal (st st2 : State) (cell : string) (b : bool) :
  In cell PORTAL_CELLS -> process st cell = Some (st2, b) ->
  (forall r' c', find_portal_exit (st_grid st) cell (st_row st) (st_col st) = Some (Some (r', c')) ->
     b = true /\ (st_row st2, st_col st2) = advance (st_dir st) r' c' /\
     st_dir st2 = st_dir st /\ st_teleports st2 = st_teleports st + 1 /\
     st_bounces st2 = st_bounces st /\ st_path st2 = st_path st) /\
  (find_portal_exit (st_grid st) cell (st_row st) (st_col st) = Some None ->
     b = false /\ st2 = st).
Proof.
  intros Hin H; split; [intros r' c' Hf | intros Hf];
    simpl in Hin; destruct Hin as [<- | [<- | [<- | []]]];
    unfold process in H; rewrite Hf in H; simpl in H;
    try (destruct (advance (st_dir st) r' c') as [r'' c''] eqn:Ea);
    inversion H; subst; simpl; repeat split; auto.
Qed.

(** C4: on a turn at a portal cell of a rectangular grid, when another
    cell carries the same id the scan finds such a cell (the partner itself
    when it is the only other one), and the ray lands one cell past it in
    the unchanged direction, with one more teleport and no ceiling check
    ([continue]); when no other cell carries the id, the turn is that of an
    Empty cell: one cell straight on, teleport count unchanged. *)
Theorem portal_turn (rows cols : Z) (st : State) (cell : string) :
  0 <= st_row st < rows -> 0 <= st_col st < cols ->
  cell_at (st_grid st) (st_row st) (st_col st) = Some cell ->
  In cell PORTAL_CELLS -> rectangular (st_grid st) ->
  (forall pr pc, 0 <= pr -> 0 <= pc -> cell_at (st_grid st) pr pc = Some cell ->
     (pr, pc) <> (st_row st, st_col st) ->
     exists r' c' st', step rows cols st = Next st' /\
       cell_at (st_grid st) r' c' = Some cell /\ (r', c') <> (st_row st, st_col st) /\
       ((forall r c, 0 <= r -> 0 <= c -> cell_at (st_grid st) r c = Some cell ->
           (r, c) = (st_row st, st_col st) \/ (r, c) = (pr, pc)) -> (r', c') = (pr, pc)) /\
       (st_row st', st_col st') = advance (st_dir st) r' c' /\
       st_dir st' = st_dir st /\ st_teleports st' = st_teleports st + 1 /\
       st_bounces st' = st_bounces st) /\
  ((forall r c, 0 <= r -> 0 <= c -> cell_at (st_grid st) r c = Some cell ->
                (r, c) = (st_row st, st_col st)) ->
     exists st', (step rows cols st = Next st' \/ step rows cols st = Break st') /\
       (st_row st', st_col st') = advance (st_dir st) (st_row st) (st_col st) /\
       st_dir st' = st_dir st /\ st_teleports st' = st_teleports st /\
       st_bounces st' = st_bounces st).
Proof.
  intros Hr Hc Hcell Hin Hrect.
  assert (Hne : st_grid st <> []) by (intros E; rewrite E in Hcell; unfold cell_at in Hcell;
                                      destruct (Z.to_nat (st_row st)); discriminate).
  rewrite (step_at_cell _ _ _ _ Hr Hc Hcell).
  split.
  - intros pr pc Hpr Hpc Hp Hpne.
    destruct (find_portal_exit_found _ _ _ _ _ _ Hrect Hpr Hpc Hp Hpne) as [r' [c' Hf]].
    destruct (find_portal_exit_sound _ _ _ _ _ _ Hf) as [Hp' Hne'].
    destruct (find_portal_exit_bounds _ _ _ _ _ _ Hf) as [Hr' Hc'].
    destruct (process (record st) cell) as [[st2 b]|] eqn:E.
    + pose proof (process_portal _ _ _ _ Hin E) as [Hyes _].
      destruct (Hyes r' c' Hf) as [-> [Hpos [Hd [Ht [Hb _]]]]].
      exists r', c', st2; simpl in *; split; [reflexivity|].
      split; [exact Hp'|]; split; [exact Hne'|].
      split; [|repeat split; auto].
      intros Huniq; destruct (Huniq r' c' ltac:(lia) ltac:(lia) Hp') as [Ee|Ee];
        [contradiction|exact Ee].
    + exfalso; revert E; unfold process; simpl in Hin;
        destruct Hin as [<- | [<- | [<- | []]]]; simpl; rewrite Hf;
        destruct (advance _ _ _); discriminate.
  - intros Hone.
    assert (Hf : find_portal_exit (st_grid st) cell (st_row st) (st_col st) = Some None)
      by (apply find_portal_exit_none; auto).
    destruct (process (record st) cell) as [[st2 b]|] eqn:E.
    + pose proof (process_portal _ _ _ _ Hin E) as [_ Hno].
      destruct (Hno Hf) as [-> ->].
      exists (move (record st)).
      split; [destruct (1000 <? _); auto|].
      unfold move; simpl; destruct (advance _ _ _); simpl; repeat split; auto.
    + exfalso; revert E; unfold process; simpl in Hin;
        destruct Hin as [<- | [<- | [<- | []]]]; simpl; rewrite Hf; discriminate.
Qed.

(** ** C8: grids of Empty cells *)

Lemma process_empty (st : State) : process st "." = Some (st, false).
Proof. reflexivity. Qed.

Lemma cell_at_empty (grid : Grid) (r c : Z) :
  rectangular grid -> all_empty grid ->
  0 <= r < grid_rows grid -> 0 <= c < grid_cols grid ->
  cell_at grid r c = Some ".".
Proof.
  intros Hrect Hall Hr Hc; unfold cell_at, grid_rows in *.
  destruct (nth_error grid (Z.to_nat r)) as [line|] eqn:E.
  - assert (Hin : In line grid) by (eapply nth_error_In; eauto).
    pose proof (Hrect line Hin) as Hlen.
    destruct (nth_error line (Z.to_nat c)) as [g|] eqn:F.
    + f_equal; apply (Hall line Hin); eapply nth_error_In; eauto.
    + apply nth_error_None in F; lia.
  - apply nth_error_None in E; lia.
Qed.

Lemma run_straight (grid : Grid) (start_row : Z) (n : nat) :
  rectangular grid -> all_empty grid ->
  0 <= start_row < grid_rows grid -> grid_cols grid <= 1000 ->
  forall fuel st,
  st_grid st = grid -> st_row st = start_row -> st_dir st = DRight ->
  st_bounces st = 0 -> st_teleports st = 0 ->
  0 <= st_col st <= grid_cols grid -> n = Z.to_nat (grid_cols grid - st_col st) ->
  List.length (st_path st) = Z.to_nat (st_col st) -> (n < fuel)%nat ->
  exists r, run fuel (grid_rows grid) (grid_cols grid) st = Returned r /\
    r_edge r = "right" /\ r_position r = PosRow (start_row + 1) /\
    r_bounces r = 0 /\ r_teleports r = 0.
Proof.
  intros Hrect Hall Hsr Hcols.
  induction n as [|n IH]; intros fuel st Hg Hrow Hdir Hb Ht Hc Hn Hlen Hf;
    (destruct fuel as [|fuel]; [lia|]); simpl.
  - assert (Ec : st_col st = grid_cols grid) by lia.
    unfold step.
    replace (st_row st <? 0) with false by (symmetry; apply Z.ltb_ge; lia).
    replace (grid_rows grid <=? st_row st) with false by (symmetry; apply Z.leb_gt; lia).
    replace (st_col st <? 0) with false by (symmetry; apply Z.ltb_ge; lia).
    replace (grid_cols grid <=? st_col st) with true by (symmetry; apply Z.leb_le; lia).
    eexists; split; [reflexivity|]; simpl; repeat split; congruence.
  - assert (Hin : 0 <= st_col st < grid_cols grid) by lia.
    assert (Hcell : cell_at (st_grid st) (st_row st) (st_col st) = Some ".")
      by (rewrite Hg, Hrow; apply cell_at_empty; auto).
    rewrite (step_at_cell (grid_rows grid) (grid_cols grid) st "." ltac:(lia) Hin Hcell),
      process_empty.
    unfold move; simpl; rewrite Hdir; simpl.
    rewrite length_app, Hlen; simpl.
    replace (1000 <? Z.of_nat (Z.to_nat (st_col st) + 1)) with false
      by (symmetry; apply Z.ltb_ge; lia).
    apply IH; simpl; auto; try lia.
    rewrite length_app, Hlen; simpl; lia.
Qed.

Lemma run_ceiling (grid : Grid) (start_row : Z) (n : nat) :
  rectangular grid -> all_empty grid ->
  0 <= start_row < grid_rows grid -> 1000 < grid_cols grid ->
  forall fuel st,
  st_grid st = grid -> st_row st = start_row -> st_dir st = DRight ->
  st_bounces st = 0 -> st_teleports st = 0 ->
  0 <= st_col st <= 1000 -> n = Z.to_nat (1000 - st_col st) ->
  List.length (st_path st) = Z.to_nat (st_col st) -> (n < fuel)%nat ->
  exists r, run fuel (grid_rows grid) (grid_cols grid) st = Returned r /\
    r_edge r = "right" /\ r_position r = PosRow 1 /\
    r_bounces r = 0 /\ r_teleports r = 0.
Proof.
  intros Hrect Hall Hsr Hcols.
  induction n as [|n IH]; intros fuel st Hg Hrow Hdir Hb Ht Hc Hn Hlen Hf;
    (destruct fuel as [|fuel]; [lia|]); simpl;
    (assert (Hin : 0 <= st_col st < grid_cols grid) by lia);
    (assert (Hcell : cell_at (st_grid st) (st_row st) (st_col st) = Some ".")
      by (rewrite Hg, Hrow; apply cell_at_empty; auto));
    rewrite (step_at_cell (grid_rows grid) (grid_cols grid) st "." ltac:(lia) Hin Hcell),
      process_empty;
    unfold move; simpl; rewrite Hdir; simpl;
    rewrite length_app, Hlen; simpl.
  - replace (1000 <? Z.of_nat (Z.to_nat (st_col st) + 1)) with true
      by (symmetry; apply Z.ltb_lt; lia).
    eexists; split; [reflexivity|]; simpl; repeat split; congruence.
  - replace (1000 <? Z.of_nat (Z.to_nat (st_col st) + 1)) with false
      by (symmetry; apply Z.ltb_ge; lia).
    apply IH; cbn [st_grid st_row st_col st_dir st_bounces st_teleports st_path]; auto; try lia.
    rewrite length_app, Hlen; simpl; lia.
Qed.

(** C8 (as the code has it): on a rectangular grid of Empty cells, a trace
    from any row inside the grid leaves through the right edge with no
    reflection and no teleport; the exit position is the 1-indexed start
    row when the grid has at most 1000 columns, and 1 when it is wider (the
    step ceiling is hit first). *)
Theorem empty_grid_straight_line (grid : Grid) (start_row : Z) :
  grid <> [] -> rectangular grid -> all_empty grid ->
  0 <= start_row < grid_rows grid ->
  exists r, simulate_laser grid start_row DRight = Returned r /\
    r_edge r = "right" /\
    r_position r = PosRow (if grid_cols grid <=? 1000 then start_row + 1 else 1) /\
    r_bounces r = 0 /\ r_teleports r = 0.
Proof.
  intros Hne Hrect Hall Hsr.
  assert (Hc0 : 0 <= grid_cols grid) by (unfold grid_cols; destruct grid; lia).
  unfold simulate_laser, simulate_laser_fuel.
  destruct grid as [|first rest] eqn:Eg; [contradiction|]; rewrite <- Eg in *.
  destruct (grid_cols grid <=? 1000) eqn:Ec.
  - apply Z.leb_le in Ec.
    apply (run_straight grid start_row (Z.to_nat (grid_cols grid))); auto;
      simpl; try lia; reflexivity.
  - apply Z.leb_gt in Ec.
    apply (run_ceiling grid start_row 1000%nat); auto; simpl; try lia; reflexivity.
Qed.

(** C8 as stated fails: on an Empty 2 x 1001 grid, from start row 1, the
    path passes 1000 entries before the right edge and the trace returns
    the exit "right" at position 1, not at row 2. *)
Lemma wide_empty_grid_exit :
  exists r, simulate_laser wide_empty_grid 1 DRight = Returned r /\
    r_edge r = "right" /\ r_position r = PosRow 1 /\ r_position r <> PosRow (1 + 1).
Proof.
  eexists; split; [vm_compute; reflexivity|].
  repeat split; discriminate.
Qed.

(** ** C1: the step ceiling *)



(** ** C2: the generator's result *)

(** C2 fails on the code: with the stream [zero_rng], [generate_puzzle]
    runs its 100 trials, none scores above the initial best score 0, and
    it returns [None] instead of a puzzle. *)
Theorem generate_puzzle_returns_none :
  generate_puzzle zero_rng 100 "small" None 0%nat = Some (None, 1603%nat).
Proof. vm_compute; reflexivity. Qed.

(** ** C9: portal pairs of generated grids *)

Lemma list_set_sum {A} (w : A -> nat) (l : list A) (n : nat) (x v : A) :
  nth_error l n = Some x ->
  (list_sum (map w (list_set l n v)) + w x = list_sum (map w l) + w v)%nat.
Proof.
  revert n; induction l as [|y l IH]; intros n H; [destruct n; discriminate|].
  destruct n as [|n]; simpl in *.
  - inversion H; subst; lia.
  - specialize (IH n H); lia.
Qed.

Lemma set_cell_count (grid : Grid) (r c : Z) (x v t : string) :
  cell_at grid r c = Some x ->
  (count_glyph (set_cell grid r c v) t + (if String.eqb t x then 1 else 0) =
   count_glyph grid t + (if String.eqb t v then 1 else 0))%nat.
Proof.
  unfold cell_at, set_cell, count_glyph.
  destruct (nth_error grid (Z.to_nat r)) as [line|] eqn:E; [|discriminate].
  intros Hx.
  pose proof (list_set_sum (count_line t) grid (Z.to_nat r) line
                (list_set line (Z.to_nat c) v) E) as H1.
  pose proof (list_set_sum (fun g => if String.eqb t g then 1%nat else 0%nat)
                line (Z.to_nat c) x v Hx) as H2.
  fold (count_line t line) in H2; fold (count_line t (list_set line (Z.to_nat c) v)) in H2.
  lia.
Qed.

Lemma count_glyph_blank (rows cols : nat) (t : string) :
  t <> "." -> count_glyph (repeat (repeat "." cols) rows) t = 0%nat.
Proof.
  intros Ht.
  assert (Hl : count_line t (repeat "." cols) = 0%nat).
  { unfold count_line; induction cols as [|cols IH]; simpl; auto.
    destruct (String.eqb_spec t "."); [contradiction|]; exact IH. }
  unfold count_glyph; induction rows as [|rows IH]; simpl; auto; lia.
Qed.

Lemma bind_some {A B} (m : M A) (k : A -> M B) (i : nat) (res : B * nat) :
  bind m k i = Some res -> exists a j, m i = Some (a, j) /\ k a j = Some res.
Proof. unfold bind; destruct (m i) as [[a j]|]; eauto; discriminate. Qed.

Lemma lift_some {A} (o : option A) (i : nat) (a : A) (j : nat) :
  lift o i = Some (a, j) -> o = Some a /\ j = i.
Proof. destruct o; simpl; unfold ret, fail; intros H; inversion H; auto. Qed.

(** A rejection loop whose glyphs are never [t] leaves the count of [t]. *)
Lemma place_loop_other (draw : nat -> Z) (fuel : nat) (rows cols count : Z)
  (pick : M string) (t : string) :
  t <> "." -> (forall j v j', pick j = Some (v, j') -> v <> t) ->
  forall placed grid i grid' i',
  place_loop draw fuel rows cols count pick placed grid i = Some (grid', i') ->
  count_glyph grid' t = count_glyph grid t.
Proof.
  intros Ht Hpick; induction fuel as [|fuel IH]; intros placed grid i grid' i' H;
    simpl in H; [discriminate|].
  destruct (placed <? count); [|unfold ret in H; inversion H; reflexivity].
  apply bind_some in H as [r [i1 [_ H]]].
  apply bind_some in H as [c [i2 [_ H]]].
  apply bind_some in H as [x [i3 [Hx H]]]; apply lift_some in Hx as [Hx ->].
  destruct (String.eqb x ".") eqn:He; [|eapply IH; eauto].
  apply bind_some in H as [v [i4 [Hv H]]].
  apply IH in H; rewrite H.
  pose proof (set_cell_count grid r c x v t Hx) as Hc.
  apply String.eqb_eq in He; subst x.
  assert (Hvt : v <> t) by (eapply Hpick; eauto).
  destruct (String.eqb_spec t "."), (String.eqb_spec t v); try congruence; lia.
Qed.

(** A rejection loop placing [ch] adds [count - placed] copies of it. *)
Lemma place_loop_exact (draw : nat -> Z) (fuel : nat) (rows cols count : Z) (ch : string) :
  ch <> "." ->
  forall placed grid i grid' i',
  place_loop draw fuel rows cols count (ret ch) placed grid i = Some (grid', i') ->
  count_glyph grid' ch = (count_glyph grid ch + Z.to_nat (count - placed))%nat.
Proof.
  intros Hch; induction fuel as [|fuel IH]; intros placed grid i grid' i' H;
    simpl in H; [discriminate|].
  destruct (placed <? count) eqn:Ep;
    [|unfold ret in H; inversion H; subst; apply Z.ltb_ge in Ep; lia].
  apply Z.ltb_lt in Ep.
  apply bind_some in H as [r [i1 [_ H]]].
  apply bind_some in H as [c [i2 [_ H]]].
  apply bind_some in H as [x [i3 [Hx H]]]; apply lift_some in Hx as [Hx ->].
  destruct (String.eqb x ".") eqn:He; [|apply IH in H; lia].
  apply bind_some in H as [v [i4 [Hv H]]]; unfold ret in Hv; inversion Hv; subst v i4.
  apply IH in H; rewrite H.
  pose proof (set_cell_count grid r c x ch ch Hx) as Hc.
  apply String.eqb_eq in He; subst x.
  rewrite String.eqb_refl in Hc.
  destruct (String.eqb_spec ch "."); [contradiction|]; lia.
Qed.

Lemma portal_loop_count (draw : nat -> Z) (fuel : nat) (rows cols : Z) :
  forall chars grid i grid' i',
  NoDup chars -> (forall ch, In ch chars -> ch <> ".") ->
  portal_loop draw fuel rows cols chars grid i = Some (grid', i') ->
  forall t, t <> "." ->
  count_glyph grid' t = (count_glyph grid t + if existsb (String.eqb t) chars then 2 else 0)%nat.
Proof.
  induction chars as [|ch chars IH]; intros grid i grid' i' Hnd Hne H t Ht; simpl in H.
  - unfold ret in H; inversion H; simpl; lia.
  - apply bind_some in H as [g1 [i1 [H1 H]]].
    inversion Hnd as [|? ? Hnotin Hnd']; subst.
    rewrite (IH g1 i1 grid' i' Hnd' ltac:(intros; apply Hne; simpl; auto) H t Ht).
    simpl; destruct (String.eqb_spec t ch) as [->|Htc].
    + rewrite (place_loop_exact _ _ _ _ _ _ (Hne ch (or_introl eq_refl)) _ _ _ _ _ H1).
      assert (Hf : existsb (String.eqb ch) chars = false).
      { destruct (existsb (String.eqb ch) chars) eqn:E; [|reflexivity].
        apply existsb_exists in E as [y [Hy Ey]]; apply String.eqb_eq in Ey; subst; contradiction. }
      rewrite Hf; simpl; lia.
    + assert (Hpick : forall j v j', ret ch j = Some (v, j') -> v <> t).
      { intros j v j' Hp; unfold ret in Hp; inversion Hp; subst; intros E; apply Htc; auto. }
      rewrite (place_loop_other _ _ _ _ _ _ _ Ht Hpick _ _ _ _ _ H1).
      reflexivity.
Qed.

(** The mirror glyphs are never portal ids. *)
Lemma mirror_picks_not_portal (draw : nat -> Z) :
  forall pick, In pick [pick_normal draw; pick_degrading draw; pick_toggle draw; pick_flipping draw] ->
  forall t, In t PORTAL_CELLS -> forall j v j', pick j = Some (v, j') -> v <> t.
Proof.
  intros pick Hpick t Ht j v j' H.
  simpl in Hpick;
    destruct Hpick as [<- | [<- | [<- | [<- | []]]]];
    unfold pick_normal, pick_degrading, pick_toggle, pick_flipping, bind, coin, ret in H;
    repeat destruct (Z.even _); inversion H; subst;
    simpl in Ht; intuition (subst; discriminate).
Qed.

(** C9: in every grid [generate_grid] returns, each portal id it places
    ([PORTAL_CELLS[p]] for [p < min(portal_count, 3)]) is carried by exactly
    two cells. *)
Theorem generate_grid_portal_pairs (draw : nat -> Z) (fuel : nat)
  (rows cols mirror_count portal_count : Z) (mirror_distribution : Z * Z * Z * Z)
  (i : nat) (grid : Grid) (i' : nat) :
  generate_grid draw fuel rows cols mirror_count portal_count mirror_distribution i =
    Some (grid, i') ->
  forall ch, In ch (firstn (Z.to_nat (Z.min portal_count 3)) PORTAL_CELLS) ->
  count_glyph grid ch = 2%nat.
Proof.
  intros H ch Hch.
  assert (Hsub : forall n x, In x (firstn n PORTAL_CELLS) -> In x PORTAL_CELLS)
    by (intros [|[|[|n]]] x Hx; simpl in *; rewrite ?firstn_nil in Hx; intuition).
  assert (Hnd : forall n, NoDup (firstn n PORTAL_CELLS)).
  { intros [|[|[|n]]]; simpl; rewrite ?firstn_nil;
      repeat constructor; simpl; intuition discriminate. }
  assert (Hdot : forall x, In x PORTAL_CELLS -> x <> ".")
    by (intros x Hx; simpl in Hx; intuition (subst; discriminate)).
  pose proof (Hdot ch (Hsub _ _ Hch)) as Hchdot.
  unfold generate_grid in H.
  destruct mirror_distribution as [[[a b] c] d].
  destruct (_ =? 0); [discriminate|].
  apply bind_some in H as [g1 [i1 [H1 H]]].
  apply bind_some in H as [g2 [i2 [H2 H]]].
  apply bind_some in H as [g3 [i3 [H3 H]]].
  apply bind_some in H as [g4 [i4 [H4 H]]].
  rewrite (portal_loop_count _ _ _ _ _ _ _ _ _ (Hnd _)
             ltac:(intros x Hx; apply Hdot; eapply Hsub; eauto) H ch Hchdot).
  assert (Hin : existsb (String.eqb ch) (firstn (Z.to_nat (Z.min portal_count 3)) PORTAL_CELLS) = true)
    by (apply existsb_exists; exists ch; split; [exact Hch | apply String.eqb_refl]).
  rewrite Hin.
  assert (Hp : In ch PORTAL_CELLS) by (eapply Hsub; eauto).
  rewrite (place_loop_other _ _ _ _ _ _ _ Hchdot
             (mirror_picks_not_portal draw (pick_flipping draw) ltac:(simpl; auto) ch Hp) _ _ _ _ _ H4).
  rewrite (place_loop_other _ _ _ _ _ _ _ Hchdot
             (mirror_picks_not_portal draw (pick_toggle draw) ltac:(simpl; auto) ch Hp) _ _ _ _ _ H3).
  rewrite (place_loop_other _ _ _ _ _ _ _ Hchdot
             (mirror_picks_not_portal draw (pick_degrading draw) ltac:(simpl; auto) ch Hp) _ _ _ _ _ H2).
  rewrite (place_loop_other _ _ _ _ _ _ _ Hchdot
             (mirror_picks_not_portal draw (pick_normal draw) ltac:(simpl; auto) ch Hp) _ _ _ _ _ H1).
  rewrite count_glyph_blank by exact Hchdot; reflexivity.
Qed.

(** ** Concrete runs *)

Lemma iter_next_reachable (rows cols : Z) (st0 : State) (n : nat) :
  forall st, reachable rows cols st0 st -> reachable rows cols st0 (iter_next rows cols st n).
Proof.
  induction n as [|n IH]; intros st R; simpl; [exact R|].
  destruct (step rows cols st) eqn:E; auto.
  apply IH; econstructor; eauto.
Qed.

Lemma trace_after_reachable (grid : Grid) (start_row : Z) (start_direction : Direction) (n : nat) :
  reachable (grid_rows grid) (grid_cols grid) (init_state grid start_row start_direction)
    (trace_after grid start_row start_direction n).
Proof. apply iter_next_reachable; constructor. Qed.

(** * Further properties of the code *)

Lemma str_app_assoc (s1 s2 s3 : string) : ((s1 ++ s2) ++ s3)%string = (s1 ++ (s2 ++ s3))%string.
Proof. induction s1 as [|a s1 IH]; simpl; congruence. Qed.

Lemma str_app_nil_r (s : string) : (s ++ "")%string = s.
Proof. induction s as [|a s IH]; simpl; congruence. Qed.

Lemma list_ascii_app (s1 s2 : string) :
  list_ascii_of_string (s1 ++ s2) = (list_ascii_of_string s1 ++ list_ascii_of_string s2)%list.
Proof. induction s1 as [|a s1 IH]; simpl; congruence. Qed.

Lemma col_loop_S (fuel : nat) (col : Z) (result : string) :
  col_to_letter_loop (S fuel) col result =
  if 0 <? col then
    col_to_letter_loop fuel ((col - 1) / 26)
      (String (ascii_of_nat (Z.to_nat (65 + (col - 1) mod 26))) result)
  else result.
Proof. reflexivity. Qed.

Lemma col_loop_app (fuel : nat) : forall col result,
  col_to_letter_loop fuel col result = (col_to_letter_loop fuel col "" ++ result)%string.
Proof.
  induction fuel as [|fuel IH]; intros col result; [reflexivity|].
  rewrite !col_loop_S; destruct (0 <? col); [|reflexivity].
  rewrite IH, (IH _ (String _ "")), str_app_assoc; reflexivity.
Qed.

Lemma col_quot_bound (col : Z) : 0 < col -> 0 <= (col - 1) / 26 < col.
Proof.
  intros H; split; [apply Z.div_pos; lia|].
  assert ((col - 1) / 26 <= col - 1) by (apply Z.div_le_upper_bound; lia); lia.
Qed.

Lemma col_loop_fuel (n : nat) : forall m col result, 0 <= col ->
  (Z.to_nat col < n)%nat -> (Z.to_nat col < m)%nat ->
  col_to_letter_loop n col result = col_to_letter_loop m col result.
Proof.
  induction n as [|n IH]; intros m col result H0 Hn Hm; [lia|].
  destruct m as [|m]; [lia|]; rewrite !col_loop_S.
  destruct (0 <? col) eqn:E; [|reflexivity].
  apply Z.ltb_lt in E; pose proof (col_quot_bound col E).
  apply IH; lia.
Qed.

(** [col_to_letter] peels off the last letter and recurs on the quotient. *)
Lemma col_to_letter_eq (col : Z) : 0 < col ->
  col_to_letter col = (col_to_letter ((col - 1) / 26) ++
    String (ascii_of_nat (Z.to_nat (65 + (col - 1) mod 26))) "")%string.
Proof.
  intros H; unfold col_to_letter; rewrite col_loop_S.
  replace (0 <? col) with true by (symmetry; apply Z.ltb_lt; exact H).
  rewrite col_loop_app; f_equal.
  pose proof (col_quot_bound col H).
  apply col_loop_fuel; lia.
Qed.

Lemma col_to_letter_nonpos (col : Z) : col <= 0 -> col_to_letter col = "".
Proof.
  intros H; unfold col_to_letter; rewrite col_loop_S.
  replace (0 <? col) with false by (symmetry; apply Z.ltb_ge; exact H); reflexivity.
Qed.

Lemma letter_code (col : Z) : 0 < col ->
  nat_of_ascii (ascii_of_nat (Z.to_nat (65 + (col - 1) mod 26))) = Z.to_nat (65 + (col - 1) mod 26).
Proof.
  intros H; apply nat_ascii_embedding.
  pose proof (Z.mod_pos_bound (col - 1) 26 ltac:(lia)); lia.
Qed.

Lemma col_to_letter_upper (col : Z) : 0 < col ->
  col_to_letter col <> "" /\ forallb is_upper (list_ascii_of_string (col_to_letter col)) = true.
Proof.
  intros H; remember (Z.to_nat col) as n eqn:En.
  assert (Hn : (Z.to_nat col <= n)%nat) by lia; clear En.
  revert col H Hn; induction n as [|n IH]; intros col H Hn; [lia|].
  rewrite col_to_letter_eq by exact H.
  split; [destruct (col_to_letter _); discriminate|].
  rewrite list_ascii_app, forallb_app; apply andb_true_iff; split.
  - pose proof (col_quot_bound col H).
    destruct (Z.eq_dec ((col - 1) / 26) 0) as [E|E].
    + rewrite E, col_to_letter_nonpos by lia; reflexivity.
    + apply (IH ((col - 1) / 26)); lia.
  - cbn [list_ascii_of_string forallb]; unfold is_upper; rewrite letter_code by exact H.
    pose proof (Z.mod_pos_bound (col - 1) 26 ltac:(lia)).
    rewrite andb_true_r; apply andb_true_iff; split; apply Nat.leb_le; lia.
Qed.

Lemma str_snoc_inj (s1 s2 : string) (x y : ascii) :
  (s1 ++ String x "")%string = (s2 ++ String y "")%string -> s1 = s2 /\ x = y.
Proof.
  revert s2; induction s1 as [|a s1 IH]; intros s2 H; destruct s2 as [|b s2];
    simpl in H.
  - inversion H; auto.
  - inversion H as [[Ha Hs]]; destruct s2; discriminate.
  - inversion H as [[Ha Hs]]; destruct s1; discriminate.
  - inversion H as [[Ha Hs]]; subst; destruct (IH s2 Hs); subst; auto.
Qed.

Lemma col_to_letter_inj_aux (n : nat) : forall a b, 0 < a -> 0 < b ->
  (Z.to_nat a <= n)%nat -> (Z.to_nat b <= n)%nat ->
  col_to_letter a = col_to_letter b -> a = b.
Proof.
  induction n as [|n IH]; intros a b Ha Hb Hna Hnb H; [lia|].
  rewrite (col_to_letter_eq a Ha), (col_to_letter_eq b Hb) in H.
  apply str_snoc_inj in H as [Hq Hc].
  pose proof (col_quot_bound a Ha); pose proof (col_quot_bound b Hb).
  assert (Er : (a - 1) mod 26 = (b - 1) mod 26).
  { apply (f_equal nat_of_ascii) in Hc; rewrite !letter_code in Hc by lia.
    pose proof (Z.mod_pos_bound (a - 1) 26 ltac:(lia));
    pose proof (Z.mod_pos_bound (b - 1) 26 ltac:(lia)); lia. }
  assert (Eq : (a - 1) / 26 = (b - 1) / 26).
  { destruct (Z.eq_dec ((a - 1) / 26) 0) as [Ea|Ea], (Z.eq_dec ((b - 1) / 26) 0) as [Eb|Eb].
    - lia.
    - rewrite Ea, col_to_letter_nonpos in Hq by lia.
      destruct (col_to_letter_upper ((b - 1) / 26) ltac:(lia)); congruence.
    - rewrite Eb, (col_to_letter_nonpos 0) in Hq by lia.
      destruct (col_to_letter_upper ((a - 1) / 26) ltac:(lia)); congruence.
    - apply IH; auto; lia. }
  pose proof (Z.div_mod (a - 1) 26 ltac:(lia)); pose proof (Z.div_mod (b - 1) 26 ltac:(lia)).
  lia.
Qed.

(** X1: [col_to_letter] is empty for columns <= 0; for every column >= 1
    it is a non-empty string of capital letters. *)
Theorem col_to_letter_shape (col : Z) :
  (col <= 0 -> col_to_letter col = "") /\
  (0 < col -> col_to_letter col <> "" /\
              forallb is_upper (list_ascii_of_string (col_to_letter col)) = true).
Proof.
  split; [apply col_to_letter_nonpos | apply col_to_letter_upper].
Qed.

(** X2: [col_to_letter] names distinct columns >= 1 differently: equal
    letters for two positive columns mean equal columns. *)
Theorem col_to_letter_injective (a b : Z) :
  0 < a -> 0 < b -> col_to_letter a = col_to_letter b -> a = b.
Proof.
  intros Ha Hb; apply (col_to_letter_inj_aux (Nat.max (Z.to_nat a) (Z.to_nat b))); lia.
Qed.

Lemma process_counters (st st2 : State) (cell : string) (b : bool) :
  process st cell = Some (st2, b) ->
  st_bounces st <= st_bounces st2 /\ st_teleports st <= st_teleports st2 /\
  st_bounces st2 + st_teleports st2 <= st_bounces st + st_teleports st + 1.
Proof. intros H; split_process H; lia. Qed.

Lemma process_continue (st st2 : State) (cell : string) :
  process st cell = Some (st2, true) ->
  list_mem PORTAL_CELLS cell = true /\
  exists r' c', find_portal_exit (st_grid st) cell (st_row st) (st_col st) = Some (Some (r', c')) /\
    (st_row st2, st_col st2) = advance (st_dir st2) r' c'.
Proof.
  intros H; unfold process in H; cbv zeta in H.
  destruct (list_mem ["/"; "\"] cell); [discriminate|].
  destruct (dict_mem DEGRADING_MIRRORS cell).
  { destruct (negb _); [destruct (dict_get _ _)|]; inversion H. }
  destruct (is_toggle cell).
  { destruct (assoc_get _ _) as [on|]; [destruct on|]; inversion H. }
  destruct (dict_mem FLIPPING_MIRRORS cell).
  { destruct (negb _); [destruct (dict_get _ _)|];
      try destruct (assoc_get _ _); inversion H. }
  destruct (list_mem PORTAL_CELLS cell); [|discriminate].
  destruct (find_portal_exit _ _ _ _) as [[[r' c']|]|] eqn:E; [|discriminate|discriminate].
  destruct (advance (st_dir st) r' c') as [r'' c''] eqn:Ea.
  inversion H; subst; simpl; split; [reflexivity|]; eauto.
Qed.

Lemma process_stay (st st2 : State) (cell : string) :
  process st cell = Some (st2, false) ->
  st_row st2 = st_row st /\ st_col st2 = st_col st.
Proof. intros H; split_process H; auto. Qed.

(** What one turn that goes on does to position, path and counters. *)
Lemma step_next_shape (rows cols : Z) (st st' : State) :
  step rows cols st = Next st' \/ step rows cols st = Break st' ->
  (0 <= st_row st < rows /\ 0 <= st_col st < cols) /\
  st_grid st' = st_grid st /\
  st_path st' = (st_path st ++ [(st_row st, st_col st, st_dir st)])%list /\
  st_bounces st <= st_bounces st' /\ st_teleports st <= st_teleports st' /\
  st_bounces st' + st_teleports st' <= st_bounces st + st_teleports st + 1 /\
  ((st_row st', st_col st') = advance (st_dir st') (st_row st) (st_col st) \/
   exists cell r' c', cell_at (st_grid st) (st_row st) (st_col st) = Some cell /\
     list_mem PORTAL_CELLS cell = true /\
     find_portal_exit (st_grid st) cell (st_row st) (st_col st) = Some (Some (r', c')) /\
     (st_row st', st_col st') = advance (st_dir st') r' c' /\
     step rows cols st = Next st').
Proof.
  intros H.
  pose proof (step_frame _ _ _ _ H) as [Hg Hp].
  destruct (step_inside _ _ _ _ H) as [Hin [cell [st2 [b [Hc [Hpr Hst]]]]]].
  pose proof (process_counters _ _ _ _ Hpr) as Hcnt.
  split; [exact Hin|]; split; [exact Hg|]; split; [exact Hp|].
  destruct b.
  - subst st'; simpl in Hcnt; repeat (split; [lia|]).
    right; destruct (process_continue _ _ _ Hpr) as [Hm [r' [c' [Hf Ha]]]].
    exists cell, r', c'; repeat split; auto.
    destruct H as [H|H]; auto.
    unfold step in H.
    destruct Hin as [[Hr1 Hr2] [Hc1 Hc2]].
    replace (st_row st <? 0) with false in H by (symmetry; apply Z.ltb_ge; lia).
    replace (rows <=? st_row st) with false in H by (symmetry; apply Z.leb_gt; lia).
    replace (st_col st <? 0) with false in H by (symmetry; apply Z.ltb_ge; lia).
    replace (cols <=? st_col st) with false in H by (symmetry; apply Z.leb_gt; lia).
    simpl in H; rewrite Hc, Hpr in H; discriminate.
  - subst st'; unfold move in *; destruct (advance (st_dir st2) (st_row st2) (st_col st2)) as [r'' c''] eqn:Ea;
      simpl in *; repeat (split; [lia|]).
    left; destruct (process_stay _ _ _ Hpr) as [Er Ec]; simpl in Er, Ec.
    rewrite <- Ea, Er, Ec; reflexivity.
Qed.

Lemma advance_near (d : Direction) (r c : Z) :
  let '(r', c') := advance d r c in
  (r' = r /\ (c' = c + 1 \/ c' = c - 1)) \/ (c' = c /\ (r' = r + 1 \/ r' = r - 1)).
Proof. destruct d; simpl; lia. Qed.

Lemma trace_inv_step (grid : Grid) (st st' : State) :
  trace_inv grid st ->
  step (grid_rows grid) (grid_cols grid) st = Next st' \/
  step (grid_rows grid) (grid_cols grid) st = Break st' ->
  trace_inv grid st'.
Proof.
  intros [G [P [B0 [T0 [BT Pos]]]]] H.
  destruct (step_next_shape _ _ _ _ H) as [Hin [Hg [Hp [Hb [Ht [Hbt Hpos]]]]]].
  unfold trace_inv; rewrite Hg, Hp, length_app; simpl.
  split; [exact G|]; split.
  { unfold path_inside; apply Forall_app; split; [exact P|]; constructor; [simpl; lia | constructor]. }
  repeat (split; [lia|]).
  destruct Hpos as [Ha | [cell [r' [c' [_ [_ [Hf [Ha _]]]]]]]].
  - pose proof (advance_near (st_dir st') (st_row st) (st_col st)) as Hn.
    rewrite <- Ha in Hn; lia.
  - rewrite G in Hf; apply find_portal_exit_bounds in Hf.
    pose proof (advance_near (st_dir st') r' c') as Hn.
    rewrite <- Ha in Hn; lia.
Qed.

Lemma trace_inv_reachable (grid : Grid) (start_row : Z) (start_direction : Direction) (st : State) :
  reachable (grid_rows grid) (grid_cols grid) (init_state grid start_row start_direction) st ->
  trace_inv grid st.
Proof.
  intros R; induction R as [|st st' R IH Hs].
  - unfold trace_inv; simpl; repeat split; try lia; constructor.
  - apply (trace_inv_step _ st); auto.
Qed.

(** How a run that returns ends: at a turn that returns, or at a [break]. *)
Lemma run_returned (fuel : nat) (rows cols : Z) (st0 : State) :
  forall st res, reachable rows cols st0 st -> run fuel rows cols st = Returned res ->
  exists st1, reachable rows cols st0 st1 /\
    (step rows cols st1 = Exit res \/
     exists st2, step rows cols st1 = Break st2 /\ res = make_result st2 "right" (PosRow 1)).
Proof.
  induction fuel as [|fuel IH]; intros st res R H; simpl in H; [discriminate|].
  destruct (step rows cols st) as [r|st'|st'|] eqn:E; try discriminate.
  - inversion H; subst; exists st; split; auto.
  - apply (IH st'); auto; econstructor; eauto.
  - inversion H; subst; exists st; split; auto; right; exists st'; auto.
Qed.

Lemma step_exit (rows cols : Z) (st : State) (res : TraceResult) :
  step rows cols st = Exit res ->
  (st_row st < 0 /\ res = make_result st "top" (PosCol (col_to_letter (st_col st + 1)))) \/
  (0 <= st_row st /\ rows <= st_row st /\
     res = make_result st "bottom" (PosCol (col_to_letter (st_col st + 1)))) \/
  (0 <= st_row st < rows /\ st_col st < 0 /\ res = make_result st "left" (PosRow (st_row st + 1))) \/
  (0 <= st_row st < rows /\ 0 <= st_col st /\ cols <= st_col st /\
     res = make_result st "right" (PosRow (st_row st + 1))).
Proof.
  unfold step; intros H.
  destruct (st_row st <? 0) eqn:E1;
    [apply Z.ltb_lt in E1; inversion H; subst; left; split; [lia|reflexivity]|].
  apply Z.ltb_ge in E1.
  destruct (rows <=? st_row st) eqn:E2;
    [apply Z.leb_le in E2; inversion H; subst; right; left; repeat split; lia|].
  apply Z.leb_gt in E2.
  destruct (st_col st <? 0) eqn:E3;
    [apply Z.ltb_lt in E3; inversion H; subst; right; right; left; repeat split; lia|].
  apply Z.ltb_ge in E3.
  destruct (cols <=? st_col st) eqn:E4;
    [apply Z.leb_le in E4; inversion H; subst; right; right; right; repeat split; lia|].
  simpl in H; destruct (cell_at _ _ _); [|discriminate].
  destruct (process _ _) as [[st2 [|]]|]; try discriminate.
  destruct (1000 <? _); discriminate.
Qed.

Lemma simulate_laser_ends (grid : Grid) (start_row : Z) (start_direction : Direction)
  (res : TraceResult) :
  simulate_laser grid start_row start_direction = Returned res ->
  grid <> [] /\
  exists st1, reachable (grid_rows grid) (grid_cols grid) (init_state grid start_row start_direction) st1 /\
    (step (grid_rows grid) (grid_cols grid) st1 = Exit res \/
     exists st2, step (grid_rows grid) (grid_cols grid) st1 = Break st2 /\
       res = make_result st2 "right" (PosRow 1)).
Proof.
  unfold simulate_laser, simulate_laser_fuel; destruct grid as [|first rest] eqn:Eg;
    [discriminate|]; rewrite <- Eg; intros H.
  split; [subst; discriminate|].
  eapply run_returned; eauto; constructor.
Qed.

(** X5: on a grid whose first row is not empty, every exit [simulate_laser]
    reports names a place on the board's border: a row between 1 and
    [rows] for the left and right edges, the letter of a column between 1
    and [cols] for the top and bottom edges. *)
Theorem simulate_laser_exit_on_board (grid : Grid) (start_row : Z)
  (start_direction : Direction) (res : TraceResult) :
  0 < grid_cols grid ->
  simulate_laser grid start_row start_direction = Returned res ->
  ((r_edge res = "left" \/ r_edge res = "right") /\
     exists k, r_position res = PosRow k /\ 1 <= k <= grid_rows grid) \/
  ((r_edge res = "top" \/ r_edge res = "bottom") /\
     exists k, r_position res = PosCol (col_to_letter k) /\ 1 <= k <= grid_cols grid).
Proof.
  intros Hc H.
  destruct (simulate_laser_ends _ _ _ _ H) as [Hne [st1 [R Hend]]].
  pose proof (trace_inv_reachable _ _ _ _ R) as [_ [_ [_ [_ [_ Pos]]]]].
  destruct Hend as [He | [st2 [Hb ->]]].
  - apply step_exit in He as [[Hr ->] | [[Hr0 [Hr ->]] | [[Hr [Hcl ->]] | [Hr [Hc0 [Hcl ->]]]]]];
      simpl.
    + right; split; [left; reflexivity|]; exists (st_col st1 + 1); split; [reflexivity|]; lia.
    + right; split; [right; reflexivity|]; exists (st_col st1 + 1); split; [reflexivity|]; lia.
    + left; split; [left; reflexivity|]; exists (st_row st1 + 1); split; [reflexivity|]; lia.
    + left; split; [right; reflexivity|]; exists (st_row st1 + 1); split; [reflexivity|]; lia.
  - simpl; left; split; [right; reflexivity|]; exists 1; split; [reflexivity|].
    unfold grid_rows; destruct grid; [contradiction|]; simpl; lia.
Qed.

Lemma result_trace_inv (grid : Grid) (start_row : Z) (start_direction : Direction)
  (res : TraceResult) :
  simulate_laser grid start_row start_direction = Returned res ->
  path_inside (grid_rows grid) (grid_cols grid) (r_path res) /\
  0 <= r_bounces res /\ 0 <= r_teleports res /\
  r_bounces res + r_teleports res <= Z.of_nat (List.length (r_path res)).
Proof.
  intros H.
  destruct (simulate_laser_ends _ _ _ _ H) as [Hne [st1 [R Hend]]].
  pose proof (trace_inv_reachable _ _ _ _ R) as Hi.
  destruct Hend as [He | [st2 [Hb ->]]].
  - destruct Hi as [_ [P [B [T [BT _]]]]].
    apply step_exit in He as [[_ ->] | [[_ [_ ->]] | [[_ [_ ->]] | [_ [_ [_ ->]]]]]];
      simpl; auto.
  - assert (Hi2 : trace_inv grid st2) by (apply (trace_inv_step _ st1); auto).
    destruct Hi2 as [_ [P [B [T [BT _]]]]]; simpl; auto.
Qed.

(** X6: every entry of the path [simulate_laser] returns is a cell inside
    the board: row in [0, rows), column in [0, cols). *)
Theorem simulate_laser_path_inside (grid : Grid) (start_row : Z)
  (start_direction : Direction) (res : TraceResult) :
  simulate_laser grid start_row start_direction = Returned res ->
  Forall (fun e => 0 <= fst (fst e) < grid_rows grid /\ 0 <= snd (fst e) < grid_cols grid)
    (r_path res).
Proof. intros H; apply (result_trace_inv _ _ _ _ H). Qed.

(** X7: the reflection and teleport counts [simulate_laser] returns are
    non-negative and together at most the length of the returned path: a
    turn reflects or teleports at most once. *)
Theorem simulate_laser_counts_bounded (grid : Grid) (start_row : Z)
  (start_direction : Direction) (res : TraceResult) :
  simulate_laser grid start_row start_direction = Returned res ->
  0 <= r_bounces res /\ 0 <= r_teleports res /\
  r_bounces res + r_teleports res <= Z.of_nat (List.length (r_path res)).
Proof. intros H; apply (result_trace_inv _ _ _ _ H). Qed.

Lemma cell_at_In (grid : Grid) (r c : Z) (g : string) :
  cell_at grid r c = Some g -> exists line, In line grid /\ In g line.
Proof.
  unfold cell_at; destruct (nth_error grid (Z.to_nat r)) as [line|] eqn:E; [|discriminate].
  intros H; exists line; split; eapply nth_error_In; eauto.
Qed.

(** Without portal cells every turn that goes on checks the ceiling. *)
Lemma run_no_portal (grid : Grid) (rows cols : Z) :
  (forall r c g, cell_at grid r c = Some g -> list_mem PORTAL_CELLS g = false) ->
  forall fuel st, st_grid st = grid -> (List.length (st_path st) <= 1000)%nat ->
  (1001 < List.length (st_path st) + fuel)%nat ->
  run fuel rows cols st <> Diverged.
Proof.
  intros Hnp; induction fuel as [|fuel IH]; intros st G Hl Hf; [lia|]; simpl.
  destruct (step rows cols st) as [r|st'|st'|] eqn:E; try discriminate.
  assert (Hs : step rows cols st = Next st' \/ step rows cols st = Break st') by auto.
  destruct (step_next_shape _ _ _ _ Hs) as [_ [Hg [Hp [_ [_ [_ Hpos]]]]]].
  apply IH; [congruence| |rewrite Hp, length_app; simpl; lia].
  destruct (step_inside _ _ _ _ Hs) as [_ [cell [st2 [b [Hc [Hpr Hst]]]]]].
  destruct b.
  - apply process_continue in Hpr as [Hm _].
    rewrite G in Hc; rewrite (Hnp _ _ _ Hc) in Hm; discriminate.
  - subst st'; unfold step in E.
    destruct (st_row st <? 0); [discriminate|].
    destruct (rows <=? st_row st); [discriminate|].
    destruct (st_col st <? 0); [discriminate|].
    destruct (cols <=? st_col st); [discriminate|].
    simpl in E; rewrite Hc, Hpr in E.
    destruct (1000 <? _) eqn:F; [discriminate|].
    apply Z.ltb_ge in F; lia.
Qed.

Lemma simulate_laser_no_portal_not_diverged (grid : Grid) (start_row : Z)
  (start_direction : Direction) :
  (forall line g, In line grid -> In g line -> ~ In g PORTAL_CELLS) ->
  simulate_laser grid start_row start_direction <> Diverged.
Proof.
  intros Hnp.
  unfold simulate_laser, simulate_laser_fuel; destruct grid as [|first rest] eqn:Eg;
    [discriminate|]; rewrite <- Eg in *.
  apply (run_no_portal grid); [| reflexivity | simpl; lia | simpl; lia].
  intros r c g Hc; destruct (list_mem PORTAL_CELLS g) eqn:E; [|reflexivity].
  apply list_mem_In in E; destruct (cell_at_In _ _ _ _ Hc) as [line [Hl Hg]].
  exfalso; exact (Hnp line g Hl Hg E).
Qed.

(** X8: on a grid where no cell holds a portal id, [simulate_laser] never
    loops for ever: it returns or raises within 1001 turns. *)
Theorem simulate_laser_no_portal_terminates (grid : Grid) (start_row : Z)
  (start_direction : Direction) :
  (forall line g, In line grid -> In g line -> ~ In g PORTAL_CELLS) ->
  (exists r, simulate_laser grid start_row start_direction = Returned r) \/
  simulate_laser grid start_row start_direction = Raised.
Proof.
  intros Hnp.
  pose proof (simulate_laser_no_portal_not_diverged grid start_row start_direction Hnp) as H.
  destruct (simulate_laser grid start_row start_direction) as [r| |];
    [left; exists r; reflexivity | right; reflexivity | contradiction].
Qed.

(** X9: a start row outside the grid gives an immediate exit with an empty
    path and no reflection: through the top edge at column "A" when
    [start_row < 0], through the bottom edge at column "A" when
    [start_row >= rows]; an empty grid raises. *)
Theorem simulate_laser_start_outside (grid : Grid) (start_row : Z) (start_direction : Direction) :
  simulate_laser [] start_row start_direction = Raised /\
  (grid <> [] -> start_row < 0 ->
   simulate_laser grid start_row start_direction =
     Returned (mkResult [] "top" (PosCol "A") 0 0 [] [] [])) /\
  (grid <> [] -> grid_rows grid <= start_row ->
   simulate_laser grid start_row start_direction =
     Returned (mkResult [] "bottom" (PosCol "A") 0 0 [] [] [])).
Proof.
  assert (Hrun : forall f st r, step (grid_rows grid) (grid_cols grid) st = Exit r ->
            run (S f) (grid_rows grid) (grid_cols grid) st = Returned r)
    by (intros f st r H; simpl; rewrite H; reflexivity).
  split; [reflexivity|]; split; intros Hne Hr;
    unfold simulate_laser, simulate_laser_fuel; destruct grid as [|first rest] eqn:Eg;
    try contradiction; rewrite <- Eg in *;
    replace (20 * 1000)%nat with (S (20 * 1000 - 1)) by reflexivity;
    apply Hrun; unfold step, init_state; cbn [st_row st_col st_path].
  - replace (start_row <? 0) with true by (symmetry; apply Z.ltb_lt; lia); reflexivity.
  - replace (start_row <? 0) with false
      by (symmetry; apply Z.ltb_ge; subst; unfold grid_rows in Hr; simpl in Hr; lia).
    replace (grid_rows grid <=? start_row) with true by (symmetry; apply Z.leb_le; lia).
    reflexivity.
Qed.

(** ** Cycles of teleports *)

Lemma teleport_cycle_step (p : list (Z * Z * Direction)) dg tg fl b t :
  step 4 1 (mkState teleport_cycle_grid p dg tg fl 1 0 DDown b t) =
    Next (mkState teleport_cycle_grid ((p ++ [(1, 0, DDown)])%list) dg tg fl 3 0 DDown b (t + 1)) /\
  step 4 1 (mkState teleport_cycle_grid p dg tg fl 3 0 DDown b t) =
    Next (mkState teleport_cycle_grid ((p ++ [(3, 0, DDown)])%list) dg tg fl 1 0 DDown b (t + 1)).
Proof. split; reflexivity. Qed.

Lemma teleport_cycle_run (fuel : nat) :
  forall p dg tg fl r b t, r = 1 \/ r = 3 ->
  run fuel 4 1 (mkState teleport_cycle_grid p dg tg fl r 0 DDown b t) = Diverged.
Proof.
  induction fuel as [|fuel IH]; intros p dg tg fl r b t Hr; [reflexivity|].
  destruct Hr as [-> | ->]; cbn [run];
    rewrite (proj1 (teleport_cycle_step _ _ _ _ _ _)) || rewrite (proj2 (teleport_cycle_step _ _ _ _ _ _));
    apply IH; auto.
Qed.

(** X20: a teleport turn skips the step ceiling, so a ray caught in a cycle
    of teleports alone never returns: on [teleport_cycle_grid], heading down
    from row 1, the loop runs out of any fuel. *)
Theorem teleport_cycle_diverges (fuel : nat) :
  simulate_laser_fuel fuel teleport_cycle_grid 1 DDown = Diverged /\
  simulate_laser teleport_cycle_grid 1 DDown = Diverged.
Proof.
  split; [|unfold simulate_laser]; apply teleport_cycle_run; auto.
Qed.

(** The flipping branch: reflect with the current orientation (stored, or
    the glyph's initial one on a first visit), then store the flipped one. *)
Lemma process_flipping (st st2 : State) (cell : string) (b : bool) :
  dict_mem FLIPPING_MIRRORS cell = true -> process st cell = Some (st2, b) ->
  let pos := (st_row st, st_col st) in
  exists init, dict_get FLIPPING_MIRRORS cell = Some init /\
  let o := match assoc_get (st_flip st) pos with Some o => o | None => init end in
  b = false /\ st_row st2 = st_row st /\ st_col st2 = st_col st /\
  st_teleports st2 = st_teleports st /\
  st_dir st2 = get_next_direction (st_dir st) o /\
  st_bounces st2 = st_bounces st + 1 /\
  (forall q, assoc_get (st_flip st2) q =
             if pos_eqb pos q then Some (flip_orient o) else assoc_get (st_flip st) q).
Proof.
  intros Hf H pos.
  assert (Hcell : cell = "{/" \/ cell = "{\") by (glyph_of Hf).
  destruct Hcell as [-> | ->]; unfold process in H; simpl in H; fold pos in H;
    eexists; (split; [reflexivity|]); cbv zeta; unfold assoc_mem in H;
    (destruct (assoc_get (st_flip st) pos) as [o|] eqn:E;
     [simpl in H; rewrite E in H | simpl in H; rewrite assoc_get_set, pos_eqb_refl in H; simpl in H]);
    inversion H; subst; simpl; (repeat split); intros q;
    rewrite !assoc_get_set; unfold flip_orient;
    destruct (pos_eqb pos q); reflexivity.
Qed.

Lemma process_flip_other (st st2 : State) (cell : string) (b : bool) :
  dict_mem FLIPPING_MIRRORS cell = false -> process st cell = Some (st2, b) ->
  st_flip st2 = st_flip st.
Proof. intros Hf H; split_process H; congruence. Qed.

Lemma step_flip_table (rows cols : Z) (st st' : State) :
  step rows cols st = Next st' \/ step rows cols st = Break st' ->
  exists cell st2 b,
    cell_at (st_grid st) (st_row st) (st_col st) = Some cell /\
    process (record st) cell = Some (st2, b) /\
    st_flip st' = st_flip st2 /\ st_dir st' = st_dir st2 /\ st_bounces st' = st_bounces st2.
Proof.
  intros H; apply step_inside in H as [_ [cell [st2 [b [Hc [Hp ->]]]]]].
  exists cell, st2, b; repeat split; auto;
    destruct b; try reflexivity; unfold move; destruct (advance _ _ _); reflexivity.
Qed.

Lemma reachable_flip_state (grid : Grid) (start_row : Z) (start_direction : Direction)
  (rows cols : Z) (st : State) :
  reachable rows cols (init_state grid start_row start_direction) st ->
  st_grid st = grid /\ flip_inv grid st.
Proof.
  intros R; induction R as [|st st' R IH Hs].
  - split; [reflexivity|]; intros q.
    destruct (cell_at grid (fst q) (snd q)) as [c|]; [destruct (dict_get FLIPPING_MIRRORS c)|];
      reflexivity.
  - destruct IH as [G F].
    assert (Hs' : step rows cols st = Next st' \/ step rows cols st = Break st') by auto.
    pose proof (step_frame _ _ _ _ Hs') as [G' _].
    pose proof (fun q => visits_step _ _ _ _ q Hs') as V.
    destruct (step_flip_table _ _ _ _ Hs') as [cell [st2 [b [Hc [Hp [Hf _]]]]]].
    rewrite G in Hc.
    split; [congruence|]; intros q; rewrite (V q), Hf.
    destruct (dict_mem FLIPPING_MIRRORS cell) eqn:E.
    + pose proof (process_flipping _ _ _ _ E Hp) as [init [Hi [_ [_ [_ [_ [_ [_ Hq]]]]]]]].
      unfold record in Hq; cbn [st_row st_col st_flip] in Hq; rewrite Hq.
      destruct (pos_eqb (st_row st, st_col st) q) eqn:Fq.
      * apply pos_eqb_eq in Fq; subst q; cbn [fst snd]; rewrite Hc, Hi.
        specialize (F (st_row st, st_col st)); cbn [fst snd] in F; rewrite Hc, Hi in F.
        rewrite F, Nat.add_1_r.
        destruct (visits _ _); reflexivity.
      * rewrite Nat.add_0_r; apply F.
    + rewrite (process_flip_other _ _ _ _ E Hp); unfold record; cbn [st_flip].
      destruct (pos_eqb (st_row st, st_col st) q) eqn:Fq.
      * apply pos_eqb_eq in Fq; subst q.
        specialize (F (st_row st, st_col st)); cbn [fst snd] in F |- *; rewrite Hc in F |- *.
        assert (Hn : dict_get FLIPPING_MIRRORS cell = None)
          by (unfold dict_mem in E; destruct (dict_get _ _); [discriminate|reflexivity]).
        rewrite Hn in F |- *; exact F.
      * rewrite Nat.add_0_r; apply F.
Qed.

Lemma flip_orient_iter (init : string) (k : nat) :
  init = "/" \/ init = "\" ->
  Nat.iter k flip_orient init = if Nat.even k then init else flip_orient init.
Proof.
  intros Hi; induction k as [|k IH]; [reflexivity|].
  simpl Nat.iter; rewrite IH, Nat.even_succ, <- Nat.negb_even.
  destruct (Nat.even k); simpl; [reflexivity|].
  destruct Hi as [-> | ->]; reflexivity.
Qed.

(** X10: on every visit of a flipping cell the ray is reflected, with one
    more bounce, by the cell's current orientation, and the flipped
    orientation is stored: the orientation used on a visit after [k]
    earlier ones is the glyph's initial one when [k] is even and the other
    one when [k] is odd. *)
Theorem flipping_mirror_visits (grid : Grid) (start_row : Z) (start_direction : Direction)
  (rows cols : Z) (st st' : State) (cell : string) :
  reachable rows cols (init_state grid start_row start_direction) st ->
  step rows cols st = Next st' \/ step rows cols st = Break st' ->
  cell_at grid (st_row st) (st_col st) = Some cell ->
  dict_mem FLIPPING_MIRRORS cell = true ->
  exists init, dict_get FLIPPING_MIRRORS cell = Some init /\
  let k := visits (st_row st, st_col st) (st_path st) in
  let o := if Nat.even k then init else flip_orient init in
  st_dir st' = get_next_direction (st_dir st) o /\
  st_bounces st' = st_bounces st + 1 /\
  assoc_get (st_flip st') (st_row st, st_col st) = Some (flip_orient o).
Proof.
  intros R Hs Hc Hfm.
  destruct (reachable_flip_state _ _ _ _ _ _ R) as [G F].
  destruct (step_flip_table _ _ _ _ Hs) as [cell' [st2 [b [Hc' [Hp [Ef [Ed Eb]]]]]]].
  rewrite G, Hc in Hc'; inversion Hc'; subst cell'; clear Hc'.
  destruct (process_flipping _ _ _ _ Hfm Hp) as [init [Hi [_ [_ [_ [_ [Hd [Hb Hq]]]]]]]].
  unfold record in Hd, Hb, Hq; cbn [st_row st_col st_flip st_dir st_bounces] in Hd, Hb, Hq.
  assert (Hinit : init = "/" \/ init = "\").
  { assert (Hcell : cell = "{/" \/ cell = "{\") by (glyph_of Hfm).
    destruct Hcell as [-> | ->]; simpl in Hi; inversion Hi; auto. }
  assert (Ho : match assoc_get (st_flip st) (st_row st, st_col st) with
               | Some o => o | None => init end =
               Nat.iter (visits (st_row st, st_col st) (st_path st)) flip_orient init).
  { specialize (F (st_row st, st_col st)); cbn [fst snd] in F; rewrite Hc, Hi in F.
    rewrite F; destruct (visits _ _); reflexivity. }
  rewrite Ho, flip_orient_iter in Hd, Hq by exact Hinit.
  exists init; split; [exact Hi|]; cbv zeta.
  split; [congruence|]; split; [congruence|].
  rewrite Ef, Hq, pos_eqb_refl; reflexivity.
Qed.

Lemma gemini_step_next (rows cols : Z) (gs gs' : Gemini.State) :
  Gemini.step rows cols gs = Gemini.Next gs' ->
  (List.length (Gemini.g_path gs') = S (List.length (Gemini.g_path gs)) /\
   List.length (Gemini.g_path gs') <= 1000)%nat.
Proof.
  unfold Gemini.step; intros H.
  destruct (Gemini.g_row gs <? 0); [discriminate|].
  destruct (rows <=? Gemini.g_row gs); [discriminate|].
  destruct (Gemini.g_col gs <? 0); [discriminate|].
  destruct (cols <=? Gemini.g_col gs); [discriminate|].
  destruct (cell_at _ _ _); [|discriminate].
  destruct (advance _ _ _) as [r' c'].
  destruct (1000 <? _) eqn:E; inversion H; subst; simpl.
  apply Z.ltb_ge in E; rewrite length_app in *; simpl in *; lia.
Qed.

Lemma gemini_run_ends (rows cols : Z) : forall fuel gs,
  (List.length (Gemini.g_path gs) <= 1000)%nat ->
  (1001 < List.length (Gemini.g_path gs) + fuel)%nat ->
  Gemini.run fuel rows cols gs <> Gemini.Diverged.
Proof.
  induction fuel as [|fuel IH]; intros gs Hl Hf; [lia|]; simpl.
  destruct (Gemini.step rows cols gs) as [r|gs'|gs'|] eqn:E; try discriminate.
  apply gemini_step_next in E; apply IH; lia.
Qed.

Lemma gemini_simulate_laser_not_diverged (grid : Grid) (start_row : Z)
  (start_direction : Direction) :
  Gemini.simulate_laser grid start_row start_direction <> Gemini.Diverged.
Proof.
  unfold Gemini.simulate_laser; destruct grid as [|first rest]; [discriminate|].
  apply gemini_run_ends; simpl; lia.
Qed.

(** X15: the tracer of test_gemini.py always ends: on every grid and start
    row it returns or raises, within 1001 turns; it has no portal branch
    that skips the step ceiling. *)
Theorem gemini_simulate_laser_terminates (grid : Grid) (start_row : Z)
  (start_direction : Direction) :
  (exists r, Gemini.simulate_laser grid start_row start_direction = Gemini.Returned r) \/
  Gemini.simulate_laser grid start_row start_direction = Gemini.Raised.
Proof.
  pose proof (gemini_simulate_laser_not_diverged grid start_row start_direction) as H.
  destruct (Gemini.simulate_laser grid start_row start_direction) as [r| |];
    [left; exists r; reflexivity | right; reflexivity | contradiction].
Qed.

(** On a glyph without a branch of its own, the [if/elif] chain is that of
    the single-provider tracer: reflect on "/" and "\\", else nothing. *)
Lemma process_plain (st : State) (cell : string) :
  special cell = false ->
  process st cell =
    Some (if list_mem ["/"; "\"] cell
          then with_dir_bounces st (get_next_direction (st_dir st) cell) (st_bounces st + 1)
          else st, false).
Proof.
  unfold special, process; intros H.
  destruct (list_mem ["/"; "\"] cell); [reflexivity|].
  apply orb_false_iff in H as [H H4]; apply orb_false_iff in H as [H H3];
    apply orb_false_iff in H as [H1 H2].
  rewrite H1, H2, H3, H4; reflexivity.
Qed.


Lemma gemini_run_refines (grid : Grid) (rows cols : Z) :
  (forall r c g, cell_at grid r c = Some g -> special g = false) ->
  forall fuel gs st, gemini_rel gs st -> st_grid st = grid ->
  Gemini.run fuel rows cols gs = project (run fuel rows cols st).
Proof.
  intros Hsp; induction fuel as [|fuel IH]; intros gs st [Eg [Ep [Er [Ec Ed]]]] G;
    [reflexivity|].
  destruct gs as [gg gp gr gc gd]; cbn [Gemini.g_grid Gemini.g_path Gemini.g_row Gemini.g_col
    Gemini.g_dir] in *; subst gg gp gr gc gd.
  cbn [run Gemini.run]; unfold step, Gemini.step;
    cbn [Gemini.g_grid Gemini.g_path Gemini.g_row Gemini.g_col Gemini.g_dir].
  destruct (st_row st <? 0); [reflexivity|].
  destruct (rows <=? st_row st); [reflexivity|].
  destruct (st_col st <? 0); [reflexivity|].
  destruct (cols <=? st_col st); [reflexivity|].
  unfold record at 1; cbn [st_grid].
  destruct (cell_at (st_grid st) (st_row st) (st_col st)) as [cell|] eqn:Hc; [|reflexivity].
  rewrite process_plain by (rewrite G in Hc; exact (Hsp _ _ _ Hc)).
  destruct (list_mem ["/"; "\"] cell); unfold move, with_dir_bounces, record;
    cbn [st_grid st_path st_row st_col st_dir st_bounces st_teleports];
    (destruct (advance _ (st_row st) (st_col st)) as [r' c']);
    cbn [st_grid st_path st_row st_col st_dir];
    (destruct (1000 <? _); [reflexivity|]);
    (apply IH; [repeat split | exact G]).
Qed.

Lemma gemini_simulate_laser_agrees_of (grid : Grid) (start_row : Z)
  (start_direction : Direction) :
  (forall line g, In line grid -> In g line -> special g = false) ->
  Gemini.simulate_laser grid start_row start_direction =
    project (simulate_laser grid start_row start_direction).
Proof.
  intros Hsp; unfold Gemini.simulate_laser, simulate_laser, simulate_laser_fuel.
  destruct grid as [|first rest] eqn:Eg; [reflexivity|]; rewrite <- Eg in *.
  apply (gemini_run_refines grid); [| repeat split | reflexivity].
  intros r c g Hc; destruct (cell_at_In _ _ _ _ Hc) as [line [Hl Hg]]; eauto.
Qed.

(** X16: on a grid none of whose cells is a degrading, toggle or flipping
    mirror or a portal, the tracer of test_gemini.py and that of
    test_all_providers.py agree: both raise, or both return the same path
    and the same exit. *)
Theorem gemini_simulate_laser_agrees (grid : Grid) (start_row : Z)
  (start_direction : Direction) :
  (forall line g, In line grid -> In g line -> special g = false) ->
  Gemini.simulate_laser grid start_row start_direction =
    project (simulate_laser grid start_row start_direction).
Proof. exact (gemini_simulate_laser_agrees_of grid start_row start_direction). Qed.

Lemma digits_nonempty (fuel : nat) : forall n acc, acc <> "" -> digits fuel n acc <> "".
Proof.
  induction fuel as [|fuel IH]; intros n acc H; simpl; [exact H|].
  destruct (n <? 10); [discriminate|]; apply IH; discriminate.
Qed.

Lemma str_of_Z_nonempty (n : Z) : str_of_Z n <> "".
Proof.
  unfold str_of_Z; simpl.
  destruct (n <? 10); [discriminate|]; apply digits_nonempty; discriminate.
Qed.

(** Padding by hand is [rjust(2)] on a non-empty string. *)
Lemma row_label_rjust2 (r : Z) : Gemini.row_label r = rjust2 (str_of_Z (r + 1)).
Proof.
  unfold Gemini.row_label, rjust2.
  pose proof (str_of_Z_nonempty (r + 1)) as H.
  destruct (str_of_Z (r + 1)) as [|a [|b s]]; [contradiction| reflexivity | reflexivity].
Qed.

Lemma render_rows_same (rows_left : list (list string)) : forall r start_row cols,
  Gemini.render_rows rows_left r start_row cols = render_rows rows_left r start_row cols.
Proof.
  induction rows_left as [|line rest IH]; intros r start_row cols; simpl; [reflexivity|].
  rewrite IH, row_label_rjust2; reflexivity.
Qed.

Lemma gemini_generate_puzzle_ascii_same_of (grid : Grid) (start_row : Z) :
  Gemini.generate_puzzle_ascii grid start_row = generate_puzzle_ascii grid start_row.
Proof.
  unfold Gemini.generate_puzzle_ascii, generate_puzzle_ascii.
  destruct grid as [|first rest]; [reflexivity|].
  rewrite render_rows_same; reflexivity.
Qed.

(** X17: the two scripts render a puzzle alike: on every grid and start row
    the renderer of test_gemini.py, which pads one-digit row numbers by
    hand, gives the same text as that of test_all_providers.py, which
    uses [rjust(2)], and both raise on the same grids. *)
Theorem gemini_generate_puzzle_ascii_same (grid : Grid) (start_row : Z) :
  Gemini.generate_puzzle_ascii grid start_row = generate_puzzle_ascii grid start_row.
Proof. exact (gemini_generate_puzzle_ascii_same_of grid start_row). Qed.

Lemma bind_ret_r {A} (m : M A) : forall i, bind m ret i = m i.
Proof. intros i; unfold bind, ret; destruct (m i) as [[a j]|]; reflexivity. Qed.

(** X18: with the default distribution [(100, 0, 0, 0)] and no portals, the
    [generate_grid] of test_all_providers.py reads the random source
    exactly as the [generate_grid] of test_gemini.py and returns the same
    grid, or fails alike. *)
Theorem generate_grid_default_is_gemini (draw : nat -> Z) (fuel : nat) (rows cols mirror_count : Z) :
  (1 <= fuel)%nat ->
  forall i, generate_grid draw fuel rows cols mirror_count 0 (100, 0, 0, 0) i =
            Gemini.generate_grid draw fuel rows cols mirror_count i.
Proof.
  intros Hf i; destruct fuel as [|fuel]; [lia|].
  unfold generate_grid, Gemini.generate_grid; cbv zeta.
  replace (100 + 0 + 0 + 0) with 100 by reflexivity.
  replace (100 =? 0) with false by reflexivity.
  replace (Z.quot (mirror_count * 100) 100) with mirror_count
    by (symmetry; apply Z.quot_mul; lia).
  replace (Z.quot (mirror_count * 0) 100) with 0 by (rewrite Z.mul_0_r; reflexivity).
  replace (mirror_count - mirror_count - 0 - 0) with 0 by lia.
  unfold bind at 1.
  destruct (place_loop draw (S fuel) rows cols mirror_count (pick_normal draw) 0 _ i)
    as [[g j]|]; [|reflexivity].
  reflexivity.
Qed.

Lemma list_set_length {A} (l : list A) : forall n v, List.length (list_set l n v) = List.length l.
Proof. induction l as [|x l IH]; intros [|n] v; simpl; auto. Qed.

Lemma list_set_In {A} (l : list A) : forall n v y, In y (list_set l n v) -> In y l \/ y = v.
Proof.
  induction l as [|x l IH]; intros [|n] v y H; simpl in *; auto.
  - destruct H; auto.
  - destruct H as [<-|H]; auto. destruct (IH n v y H); auto.
Qed.

Lemma set_cell_shape (rows cols : nat) (grid : Grid) (r c : Z) (v : string) :
  grid_shape rows cols grid -> grid_shape rows cols (set_cell grid r c v).
Proof.
  intros [Hl Hc]; unfold set_cell.
  destruct (nth_error grid (Z.to_nat r)) as [line|] eqn:E; [|split; auto].
  split; [rewrite list_set_length; exact Hl|].
  intros y Hy; apply list_set_In in Hy as [Hy| ->]; auto.
  rewrite list_set_length; apply Hc; eapply nth_error_In; eauto.
Qed.

Lemma place_loop_shape (draw : nat -> Z) (rows' cols' : nat) (fuel : nat) (rows cols count : Z)
  (pick : M string) :
  forall placed grid i grid' i',
  grid_shape rows' cols' grid ->
  place_loop draw fuel rows cols count pick placed grid i = Some (grid', i') ->
  grid_shape rows' cols' grid'.
Proof.
  induction fuel as [|fuel IH]; intros placed grid i grid' i' Hs H; simpl in H; [discriminate|].
  destruct (placed <? count); [|unfold ret in H; inversion H; subst; exact Hs].
  apply bind_some in H as [r [i1 [_ H]]].
  apply bind_some in H as [c [i2 [_ H]]].
  apply bind_some in H as [x [i3 [_ H]]].
  destruct (String.eqb x "."); [|eapply IH; eauto].
  apply bind_some in H as [v [i4 [_ H]]].
  eapply IH; [apply set_cell_shape; exact Hs | exact H].
Qed.

Lemma portal_loop_shape (draw : nat -> Z) (rows' cols' : nat) (fuel : nat) (rows cols : Z) :
  forall chars grid i grid' i',
  grid_shape rows' cols' grid ->
  portal_loop draw fuel rows cols chars grid i = Some (grid', i') ->
  grid_shape rows' cols' grid'.
Proof.
  induction chars as [|ch chars IH]; intros grid i grid' i' Hs H; simpl in H.
  - unfold ret in H; inversion H; subst; exact Hs.
  - apply bind_some in H as [g1 [i1 [H1 H]]].
    eapply IH; [eapply place_loop_shape; eauto | exact H].
Qed.

Lemma blank_shape (rows cols : nat) : grid_shape rows cols (repeat (repeat "." cols) rows).
Proof.
  split; [apply repeat_length|].
  intros line Hl; apply repeat_spec in Hl; subst; apply repeat_length.
Qed.

Lemma generate_grid_shape_of (draw : nat -> Z) (fuel : nat) (rows cols mirror_count portal_count : Z)
  (mirror_distribution : Z * Z * Z * Z) (i : nat) (grid : Grid) (i' : nat) :
  generate_grid draw fuel rows cols mirror_count portal_count mirror_distribution i = Some (grid, i') ->
  grid_shape (Z.to_nat rows) (Z.to_nat cols) grid.
Proof.
  intros H; unfold generate_grid in H.
  destruct mirror_distribution as [[[a b] c] d].
  destruct (_ =? 0); [discriminate|].
  apply bind_some in H as [g1 [i1 [H1 H]]].
  apply bind_some in H as [g2 [i2 [H2 H]]].
  apply bind_some in H as [g3 [i3 [H3 H]]].
  apply bind_some in H as [g4 [i4 [H4 H]]].
  eapply portal_loop_shape; [|exact H].
  eapply place_loop_shape; [|exact H4].
  eapply place_loop_shape; [|exact H3].
  eapply place_loop_shape; [|exact H2].
  eapply place_loop_shape; [|exact H1].
  apply blank_shape.
Qed.

(** Each placement of a glyph other than "." takes one blank cell. *)
Lemma place_loop_dots (draw : nat -> Z) (fuel : nat) (rows cols count : Z) (pick : M string) :
  (forall j v j', pick j = Some (v, j') -> v <> ".") ->
  forall placed grid i grid' i',
  placed <= count \/ placed = 0 ->
  place_loop draw fuel rows cols count pick placed grid i = Some (grid', i') ->
  (count_glyph grid' "." + Z.to_nat (count - placed) = count_glyph grid ".")%nat.
Proof.
  intros Hpick; induction fuel as [|fuel IH]; intros placed grid i grid' i' Hp H;
    simpl in H; [discriminate|].
  destruct (placed <? count) eqn:Ep;
    [|unfold ret in H; inversion H; subst; apply Z.ltb_ge in Ep; lia].
  apply Z.ltb_lt in Ep.
  apply bind_some in H as [r [i1 [_ H]]].
  apply bind_some in H as [c [i2 [_ H]]].
  apply bind_some in H as [x [i3 [Hx H]]]; apply lift_some in Hx as [Hx ->].
  destruct (String.eqb x ".") eqn:He; [|apply IH in H; [lia | lia]].
  apply bind_some in H as [v [i4 [Hv H]]].
  apply IH in H; [|lia].
  pose proof (set_cell_count grid r c x v "." Hx) as Hc.
  apply String.eqb_eq in He; subst x.
  rewrite String.eqb_refl in Hc.
  destruct (String.eqb_spec "." v) as [E|_]; [symmetry in E; contradiction (Hpick _ _ _ Hv E)|].
  lia.
Qed.

Lemma portal_loop_dots (draw : nat -> Z) (fuel : nat) (rows cols : Z) :
  forall chars grid i grid' i',
  (forall ch, In ch chars -> ch <> ".") ->
  portal_loop draw fuel rows cols chars grid i = Some (grid', i') ->
  (count_glyph grid' "." + 2 * List.length chars = count_glyph grid ".")%nat.
Proof.
  induction chars as [|ch chars IH]; intros grid i grid' i' Hne H; simpl in H.
  - unfold ret in H; inversion H; simpl; lia.
  - apply bind_some in H as [g1 [i1 [H1 H]]].
    pose proof (IH g1 i1 grid' i' ltac:(intros; apply Hne; simpl; auto) H) as E2.
    assert (Hp : forall j v j', ret ch j = Some (v, j') -> v <> ".").
    { intros j v j' Hv; unfold ret in Hv; inversion Hv; subst; apply Hne; simpl; auto. }
    pose proof (place_loop_dots _ _ _ _ _ _ Hp 0 grid i g1 i1 (or_intror eq_refl) H1) as E1.
    simpl List.length; lia.
Qed.

Lemma mirror_picks_not_dot (draw : nat -> Z) :
  forall pick, In pick [pick_normal draw; pick_degrading draw; pick_toggle draw; pick_flipping draw] ->
  forall j v j', pick j = Some (v, j') -> v <> ".".
Proof.
  intros pick Hpick j v j' H.
  simpl in Hpick;
    destruct Hpick as [<- | [<- | [<- | [<- | []]]]];
    unfold pick_normal, pick_degrading, pick_toggle, pick_flipping, bind, coin, ret in H;
    repeat destruct (Z.even _); inversion H; subst; discriminate.
Qed.

Lemma count_glyph_blank_dot (rows cols : nat) :
  count_glyph (repeat (repeat "." cols) rows) "." = (rows * cols)%nat.
Proof.
  assert (Hl : count_line "." (repeat "." cols) = cols).
  { unfold count_line; induction cols as [|cols IH]; simpl; auto. }
  unfold count_glyph; induction rows as [|rows IH]; [reflexivity|].
  transitivity (count_line "." (repeat "." cols) +
                list_sum (map (count_line ".") (repeat (repeat "." cols) rows)))%nat;
    [reflexivity|].
  rewrite Hl, IH; lia.
Qed.

Lemma quot_share_sum (m a b c d : Z) :
  0 <= m -> 0 <= a -> 0 <= b -> 0 <= c -> 0 <= d -> a + b + c + d <> 0 ->
  0 <= Z.quot (m * a) (a + b + c + d) /\ 0 <= Z.quot (m * b) (a + b + c + d) /\
  0 <= Z.quot (m * c) (a + b + c + d) /\
  Z.quot (m * a) (a + b + c + d) + Z.quot (m * b) (a + b + c + d) +
  Z.quot (m * c) (a + b + c + d) <= m.
Proof.
  intros Hm Ha Hb Hc Hd Ht.
  set (t := a + b + c + d).
  assert (Htp : 0 < t) by (unfold t; lia).
  rewrite !Z.quot_div_nonneg by nia.
  pose proof (Z.mul_div_le (m * a) t Htp).
  pose proof (Z.mul_div_le (m * b) t Htp).
  pose proof (Z.mul_div_le (m * c) t Htp).
  assert (0 <= m * a / t) by (apply Z.div_pos; nia).
  assert (0 <= m * b / t) by (apply Z.div_pos; nia).
  assert (0 <= m * c / t) by (apply Z.div_pos; nia).
  repeat split; try lia.
  assert (t * (m * a / t + m * b / t + m * c / t) <= t * m) by (unfold t in *; nia).
  nia.
Qed.

Lemma generate_grid_fill_of (draw : nat -> Z) (fuel : nat) (rows cols mirror_count portal_count a b c d : Z)
  (i : nat) (grid : Grid) (i' : nat) :
  0 <= mirror_count -> 0 <= a -> 0 <= b -> 0 <= c -> 0 <= d ->
  generate_grid draw fuel rows cols mirror_count portal_count (a, b, c, d) i = Some (grid, i') ->
  (count_glyph grid "." + Z.to_nat mirror_count + 2 * Z.to_nat (Z.min portal_count 3) =
   Z.to_nat rows * Z.to_nat cols)%nat.
Proof.
  intros Hm Ha Hb Hc Hd H; unfold generate_grid in H.
  destruct (a + b + c + d =? 0) eqn:Et; [discriminate|].
  apply Z.eqb_neq in Et.
  destruct (quot_share_sum mirror_count a b c d Hm Ha Hb Hc Hd Et) as [Q1 [Q2 [Q3 Q4]]].
  apply bind_some in H as [g1 [i1 [H1 H]]].
  apply bind_some in H as [g2 [i2 [H2 H]]].
  apply bind_some in H as [g3 [i3 [H3 H]]].
  apply bind_some in H as [g4 [i4 [H4 H]]].
  assert (Hpd : forall x, In x (firstn (Z.to_nat (Z.min portal_count 3)) PORTAL_CELLS) -> x <> ".")
    by (intros x Hx; destruct (Z.to_nat (Z.min portal_count 3)) as [|[|[|n]]];
          simpl in Hx; rewrite ?firstn_nil in Hx; intuition (subst; discriminate)).
  pose proof (portal_loop_dots _ _ _ _ _ _ _ _ _ Hpd H) as E5.
  rewrite length_firstn in E5; simpl (List.length PORTAL_CELLS) in E5.
  pose proof (place_loop_dots _ _ _ _ _ _ (mirror_picks_not_dot draw (pick_normal draw) ltac:(simpl; auto)) 0 _ _ _ _ (or_intror eq_refl) H1) as E1.
  pose proof (place_loop_dots _ _ _ _ _ _ (mirror_picks_not_dot draw (pick_degrading draw) ltac:(simpl; auto)) 0 _ _ _ _ (or_intror eq_refl) H2) as E2.
  pose proof (place_loop_dots _ _ _ _ _ _ (mirror_picks_not_dot draw (pick_toggle draw) ltac:(simpl; auto)) 0 _ _ _ _ (or_intror eq_refl) H3) as E3.
  pose proof (place_loop_dots _ _ _ _ _ _ (mirror_picks_not_dot draw (pick_flipping draw) ltac:(simpl; auto)) 0 _ _ _ _ (or_intror eq_refl) H4) as E4.
  rewrite count_glyph_blank_dot in E1.
  rewrite !Z.sub_0_r in E1, E2, E3, E4.
  assert (Hmin : (Init.Nat.min (Z.to_nat (Z.min portal_count 3)) 3 = Z.to_nat (Z.min portal_count 3))%nat) by lia.
  rewrite Hmin in E5.
  lia.
Qed.

(** X11: [generate_grid] returns a [rows] x [cols] grid in which exactly
    [mirror_count] mirrors and [2 * min(portal_count, 3)] portal cells
    have taken blank cells; with non-negative counts and percentages it
    therefore fails unless they fit in the grid. *)
Theorem generate_grid_shape_and_fill (draw : nat -> Z) (fuel : nat)
  (rows cols mirror_count portal_count a b c d : Z) (i : nat) (grid : Grid) (i' : nat) :
  0 <= mirror_count -> 0 <= a -> 0 <= b -> 0 <= c -> 0 <= d ->
  generate_grid draw fuel rows cols mirror_count portal_count (a, b, c, d) i = Some (grid, i') ->
  List.length grid = Z.to_nat rows /\
  (forall line, In line grid -> List.length line = Z.to_nat cols) /\
  (count_glyph grid "." + Z.to_nat mirror_count + 2 * Z.to_nat (Z.min portal_count 3) =
   Z.to_nat rows * Z.to_nat cols)%nat.
Proof.
  intros Hm Ha Hb Hc Hd H.
  destruct (generate_grid_shape_of _ _ _ _ _ _ _ _ _ _ H) as [Hl Hr].
  split; [exact Hl|]; split; [exact Hr|].
  exact (generate_grid_fill_of draw fuel rows cols mirror_count portal_count a b c d
           i grid i' Hm Ha Hb Hc Hd H).
Qed.

Lemma randint_range (draw : nat -> Z) (a b : Z) (i : nat) (x : Z) (j : nat) :
  randint draw a b i = Some (x, j) -> a <= x <= b /\ j = S i.
Proof.
  unfold randint; destruct (b <? a) eqn:E; [discriminate|].
  apply Z.ltb_ge in E; intros H; inversion H; subst.
  pose proof (Z.mod_pos_bound (draw i) (b - a + 1) ltac:(lia)); lia.
Qed.

Lemma trials_ok (draw : nat -> Z) (fuel : nat) (rows cols mirror_count portal_count : Z)
  (mirror_distribution : Z * Z * Z * Z) (min_bounces : Z) :
  forall attempts best_score best_puzzle i res i',
  0 <= best_score ->
  (forall p, best_puzzle = Some p -> trial_ok rows cols p) ->
  trials draw fuel attempts rows cols mirror_count portal_count mirror_distribution
    min_bounces best_score best_puzzle i = Some (res, i') ->
  forall p, res = Some p -> trial_ok rows cols p.
Proof.
  induction attempts as [|attempts IH]; intros best_score best_puzzle i res i' Hs Hb H;
    simpl in H.
  - unfold ret in H; inversion H; subst; exact Hb.
  - apply bind_some in H as [grid [i1 [Hg H]]].
    apply bind_some in H as [start_row [i2 [Hr H]]].
    apply randint_range in Hr as [Hr _].
    destruct (simulate_laser grid start_row DRight) as [result| |] eqn:Es; try discriminate.
    apply bind_some in H as [[bs bp] [i3 [Hbest H]]].
    assert (Hinv : 0 <= bs /\ forall p, bp = Some p -> trial_ok rows cols p).
    { destruct (best_score <? _) eqn:Ec.
      - apply bind_some in Hbest as [ascii [i4 [Ha Hbest]]].
        apply lift_some in Ha as [Ha _].
        unfold ret in Hbest; inversion Hbest; subst.
        apply Z.ltb_lt in Ec.
        split; [lia|]; intros p Hp; inversion Hp; subst p.
        split; [|split; [cbn [p_bounces p_teleports]; lia|split; [exact Hr|]]].
        + exists result; cbn [p_grid p_start_row p_answer_edge p_answer_position p_path_length
                              p_bounces p_teleports p_ascii].
          repeat split; auto.
        + cbn [p_grid]; eapply generate_grid_shape_of; exact Hg.
      - unfold ret in Hbest; inversion Hbest; subst; auto. }
    destruct Hinv as [Hbs Hbp].
    destruct (min_bounces * 2 <=? bs).
    + unfold ret in H; inversion H; subst; exact Hbp.
    + eapply IH; eauto.
Qed.

Lemma config_pos (size : string) (cfg : Config) :
  PUZZLE_CONFIG size = Some cfg -> 0 < fst (cfg_rows cfg) /\ 0 < fst (cfg_cols cfg).
Proof.
  unfold PUZZLE_CONFIG.
  repeat match goal with |- context [String.eqb ?a ?b] => destruct (String.eqb a b) end;
    intros H; inversion H; subst; simpl; lia.
Qed.

(** X12: every puzzle [generate_puzzle] returns carries a consistent answer
    key: the tracer run on its own grid from its own start row returns its
    edge, position, path length, bounces and teleports, its text is that
    grid rendered, it bounces or teleports at least once, its start row is
    a row of the grid, and the grid's size lies in the ranges of the
    chosen profile. *)
Theorem generate_puzzle_answer_key (draw : nat -> Z) (fuel : nat) (size : string)
  (min_bounces : option Z) (i : nat) (p : Puzzle) (i' : nat) :
  generate_puzzle draw fuel size min_bounces i = Some (Some p, i') ->
  answer_key_ok p /\ 0 < p_bounces p + p_teleports p * 2 /\
  0 <= p_start_row p < Z.of_nat (List.length (p_grid p)) /\
  exists cfg, PUZZLE_CONFIG size = Some cfg /\
    fst (cfg_rows cfg) <= Z.of_nat (List.length (p_grid p)) <= snd (cfg_rows cfg) /\
    forall line, In line (p_grid p) ->
      fst (cfg_cols cfg) <= Z.of_nat (List.length line) <= snd (cfg_cols cfg).
Proof.
  intros H; unfold generate_puzzle in H.
  apply bind_some in H as [cfg [i1 [Hc H]]]; apply lift_some in Hc as [Hc _].
  apply bind_some in H as [rows [i2 [Hrows H]]]; apply randint_range in Hrows as [Hrows _].
  apply bind_some in H as [cols [i3 [Hcols H]]]; apply randint_range in Hcols as [Hcols _].
  apply bind_some in H as [m [i4 [_ H]]].
  destruct (config_pos size cfg Hc) as [Pr Pc].
  assert (Hnone : forall q, (None : option Puzzle) = Some q -> trial_ok rows cols q)
    by discriminate.
  destruct (trials_ok draw fuel rows cols m _ _ _ max_attempts 0 None _ _ _ (Z.le_refl 0)
              Hnone H p eq_refl)
    as [Hk [Hsc [Hst [Hl Hw]]]].
  split; [exact Hk|]; split; [exact Hsc|]; split; [lia|].
  exists cfg; split; [exact Hc|]; split; [lia|].
  intros line Hline; rewrite (Hw line Hline); lia.
Qed.

Lemma range_find_all_none {A} (i : Z) (n : nat) (f : Z -> option (option A)) :
  range_find i n f = Some None -> forall j, i <= j < i + Z.of_nat n -> f j = Some None.
Proof.
  revert i; induction n as [|n IH]; intros i H j Hj; simpl in H; [lia|].
  destruct (f i) as [[a|]|] eqn:E; try discriminate.
  destruct (Z.eq_dec j i) as [->|Ne]; [exact E|].
  apply (IH (i + 1) H); lia.
Qed.

Lemma portal_scan_skip (grid : Grid) (ch : string) (er ec r c : Z) :
  match cell_at grid r c with
  | None => None
  | Some g => if String.eqb g ch && negb ((r =? er) && (c =? ec)) then Some (Some (r, c)) else Some None
  end = Some None ->
  cell_at grid r c = Some ch -> (r, c) = (er, ec).
Proof.
  intros H Hc; rewrite Hc, String.eqb_refl in H; cbn [andb] in H.
  destruct (negb _) eqn:E; [discriminate|].
  apply negb_false_iff, andb_true_iff in E as [E1 E2].
  apply Z.eqb_eq in E1; apply Z.eqb_eq in E2; subst; reflexivity.
Qed.

(** X4: [find_portal_exit] returns the first cell in row-major order,
    other than the entry cell, that carries the portal id. *)
Theorem find_portal_exit_first (grid : Grid) (ch : string) (er ec r c : Z) :
  find_portal_exit grid ch er ec = Some (Some (r, c)) ->
  cell_at grid r c = Some ch /\ (r, c) <> (er, ec) /\
  0 <= r < grid_rows grid /\ 0 <= c < grid_cols grid /\
  forall r' c', 0 <= r' -> 0 <= c' < grid_cols grid -> (r' < r \/ (r' = r /\ c' < c)) ->
    cell_at grid r' c' = Some ch -> (r', c') = (er, ec).
Proof.
  intros H.
  destruct (find_portal_exit_sound grid ch er ec r c H) as [Hcell Hne].
  destruct (find_portal_exit_bounds grid ch er ec r c H) as [Hr Hc].
  do 4 (split; [assumption|]).
  unfold find_portal_exit in H; destruct grid as [|first rest]; [discriminate|].
  apply range_find_bound in H as [r1 [Hr1 [H Hbefore]]].
  apply range_find_bound in H as [c1 [Hc1 [H Hbefore2]]].
  destruct (cell_at _ r1 c1) as [g|]; [|discriminate].
  destruct (_ && _); inversion H; subst r1 c1; clear H.
  intros r' c' Hr' Hc' Hlt Hch.
  unfold grid_cols in Hc'.
  destruct Hlt as [Hlt|[-> Hlt]].
  - pose proof (Hbefore r' ltac:(lia)) as Hrow.
    pose proof (range_find_all_none _ _ _ Hrow c' ltac:(lia)) as Hcol.
    exact (portal_scan_skip _ _ _ _ _ _ Hcol Hch).
  - exact (portal_scan_skip _ _ _ _ _ _ (Hbefore2 c' ltac:(lia)) Hch).
Qed.

(** X3: a mirror sends the ray back the way it came in: reflecting the
    reflected direction off the same glyph gives the original direction. *)
Theorem get_next_direction_involutive (d : Direction) (mirror : string) :
  get_next_direction (get_next_direction d mirror) mirror = d.
Proof. unfold get_next_direction; destruct (String.eqb mirror "/"), d; reflexivity. Qed.

(** ** Errors of the renderer *)

Lemma render_rows_none (rows_left : list (list string)) : forall r start_row cols,
  render_rows rows_left r start_row cols = None <->
  exists line, In line rows_left /\ (List.length line < cols)%nat.
Proof.
  induction rows_left as [|line rest IH]; intros r start_row cols; simpl.
  - split; [discriminate|intros [l [[] _]]].
  - destruct (cols <=? List.length line)%nat eqn:E.
    + apply Nat.leb_le in E.
      destruct (render_rows rest (r + 1) start_row cols) eqn:Er.
      * split; [discriminate|].
        intros [l [[<-|Hl] Hlt]]; [lia|].
        assert (Hn : render_rows rest (r + 1) start_row cols = None)
          by (apply IH; eauto).
        congruence.
      * split; [intros _|reflexivity].
        apply IH in Er as [l [Hl Hlt]]; eauto.
    + apply Nat.leb_gt in E; split; [intros _; eauto|reflexivity].
Qed.

(** X13: [generate_puzzle_ascii] raises exactly on the empty grid and on a
    grid with a row shorter than the first one. *)
Theorem generate_puzzle_ascii_fails (grid : Grid) (start_row : Z) :
  generate_puzzle_ascii grid start_row = None <->
  grid = [] \/ exists line, In line grid /\ (List.length line < List.length (hd [] grid))%nat.
Proof.
  unfold generate_puzzle_ascii; destruct grid as [|first rest].
  - split; auto.
  - destruct (render_rows (first :: rest) 0 start_row (List.length first)) eqn:E.
    + split; [discriminate|].
      intros [Hn|Hl]; [discriminate|].
      assert (render_rows (first :: rest) 0 start_row (List.length first) = None)
        by (apply render_rows_none; exact Hl).
      congruence.
    + split; [intros _; right; apply render_rows_none in E; exact E|reflexivity].
Qed.

(** ** The start-row marker *)

Lemma some_inj {A} (a b : A) : Some a = Some b -> a = b.
Proof. intros H; inversion H; reflexivity. Qed.

Lemma count_char_app (a : ascii) (s1 s2 : string) :
  count_char a (s1 ++ s2) = (count_char a s1 + count_char a s2)%nat.
Proof. induction s1 as [|b s1 IH]; simpl; [reflexivity|]; rewrite IH; lia. Qed.


Lemma count_gt_code (x : ascii) : nat_of_ascii x <> 62%nat -> count_char gt_char (String x "") = 0%nat.
Proof.
  intros H; cbn [count_char].
  destruct (Ascii.eqb_spec gt_char x) as [<-|_]; [|reflexivity].
  exfalso; apply H; reflexivity.
Qed.

Lemma count_gt_upper (s : string) :
  forallb is_upper (list_ascii_of_string s) = true -> count_char gt_char s = 0%nat.
Proof.
  induction s as [|x s IH]; intros H; [reflexivity|].
  cbn [list_ascii_of_string forallb] in H; apply andb_true_iff in H as [Hx Hs].
  change (String x s) with (String x "" ++ s).
  rewrite count_char_app, IH by exact Hs.
  rewrite count_gt_code; [reflexivity|].
  unfold is_upper in Hx; apply andb_true_iff in Hx as [H1 H2]; apply Nat.leb_le in H1; lia.
Qed.

Lemma count_gt_col_to_letter (c : Z) : count_char gt_char (col_to_letter c) = 0%nat.
Proof.
  destruct (Z.lt_ge_cases 0 c) as [H|H].
  - apply count_gt_upper; apply col_to_letter_upper; exact H.
  - rewrite col_to_letter_nonpos by exact H; reflexivity.
Qed.

Lemma count_gt_header (n : nat) : forall c, count_char gt_char (header c n) = 0%nat.
Proof.
  induction n as [|n IH]; intros c; [reflexivity|].
  cbn [header]; rewrite !count_char_app, count_gt_col_to_letter, IH; reflexivity.
Qed.

Lemma count_gt_repeat (n : nat) (s : string) :
  count_char gt_char s = 0%nat -> count_char gt_char (str_repeat n s) = 0%nat.
Proof.
  intros H; induction n as [|n IH]; [reflexivity|].
  cbn [str_repeat]; rewrite count_char_app, H, IH; reflexivity.
Qed.

Lemma count_gt_digits (fuel : nat) : forall n acc,
  count_char gt_char (digits fuel n acc) = count_char gt_char acc.
Proof.
  induction fuel as [|fuel IH]; intros n acc; [reflexivity|].
  assert (Hd : count_char gt_char (String (ascii_of_nat (Z.to_nat (48 + n mod 10))) acc) =
               count_char gt_char acc).
  { change (String ?x acc) with (String x "" ++ acc); rewrite count_char_app, count_gt_code;
      [reflexivity|].
    pose proof (Z.mod_pos_bound n 10 ltac:(lia)).
    rewrite nat_ascii_embedding by lia; lia. }
  cbn [digits]; destruct (n <? 10); [exact Hd|rewrite IH; exact Hd].
Qed.

Lemma count_gt_rjust2 (n : Z) : count_char gt_char (rjust2 (str_of_Z n)) = 0%nat.
Proof.
  unfold rjust2, str_of_Z; rewrite count_char_app, count_gt_repeat by reflexivity.
  rewrite count_gt_digits; reflexivity.
Qed.

Lemma count_gt_cells (cells : list string) :
  (forall g, In g cells -> count_char gt_char g = 0%nat) ->
  count_char gt_char (render_cells cells) = 0%nat.
Proof.
  induction cells as [|g cs IH]; intros H; [reflexivity|].
  cbn [render_cells]; rewrite !count_char_app, (H g (or_introl eq_refl)).
  rewrite IH by (intros x Hx; apply H; right; exact Hx); reflexivity.
Qed.

Lemma count_gt_rows (rows_left : list (list string)) : forall r start_row cols body,
  (forall line g, In line rows_left -> In g line -> count_char gt_char g = 0%nat) ->
  render_rows rows_left r start_row cols = Some body ->
  count_char gt_char body =
    if (r <=? start_row) && (start_row <? r + Z.of_nat (List.length rows_left)) then 1%nat else 0%nat.
Proof.
  induction rows_left as [|line rest IH]; intros r start_row cols body Hg H; cbn [render_rows] in H.
  - inversion H; subst; simpl.
    destruct (r <=? start_row) eqn:E1, (start_row <? r + 0) eqn:E2; auto.
    apply Z.leb_le in E1; apply Z.ltb_lt in E2; lia.
  - destruct (cols <=? List.length line)%nat; [|discriminate].
    destruct (render_rows rest (r + 1) start_row cols) as [tail|] eqn:Et; [|discriminate].
    apply some_inj in H; subst body.
    rewrite !count_char_app, count_gt_rjust2.
    change (count_char gt_char "|") with 0%nat; change (count_char gt_char newline) with 0%nat.
    rewrite (IH (r + 1) start_row cols tail ltac:(intros l g Hl; apply Hg; simpl; auto) Et).
    rewrite count_gt_cells by (intros g Hin; apply (Hg line); [simpl; auto|];
                               rewrite <- (firstn_skipn cols line); apply in_or_app; left; exact Hin).
    simpl List.length.
    destruct (r =? start_row) eqn:Er.
    + apply Z.eqb_eq in Er; subst start_row.
      change (count_char gt_char ">") with 1%nat.
      replace ((r + 1 <=? r)) with false by (symmetry; apply Z.leb_gt; lia).
      replace ((r <=? r) && (r <? r + Z.of_nat (S (List.length rest)))) with true
        by (symmetry; apply andb_true_iff; split; [apply Z.leb_le | apply Z.ltb_lt]; lia).
      reflexivity.
    + apply Z.eqb_neq in Er.
      change (count_char gt_char " ") with 0%nat.
      replace ((r <=? start_row) && (start_row <? r + Z.of_nat (S (List.length rest))))
        with ((r + 1 <=? start_row) && (start_row <? r + 1 + Z.of_nat (List.length rest))).
      * destruct (_ && _); reflexivity.
      * destruct (Z.leb_spec (r + 1) start_row), (Z.leb_spec r start_row),
                 (Z.ltb_spec start_row (r + 1 + Z.of_nat (List.length rest))),
                 (Z.ltb_spec start_row (r + Z.of_nat (S (List.length rest))));
          try reflexivity; lia.
Qed.

(** X14: when no glyph of the grid contains the character '>', the text
    [generate_puzzle_ascii] returns contains exactly one '>' (the start
    marker) if the start row is a row of the grid, and none otherwise. *)
Theorem generate_puzzle_ascii_marker (grid : Grid) (start_row : Z) (s : string) :
  (forall line g, In line grid -> In g line -> count_char gt_char g = 0%nat) ->
  generate_puzzle_ascii grid start_row = Some s ->
  count_char gt_char s =
    if (0 <=? start_row) && (start_row <? grid_rows grid) then 1%nat else 0%nat.
Proof.
  intros Hg H; unfold generate_puzzle_ascii in H; destruct grid as [|first rest]; [discriminate|].
  destruct (render_rows (first :: rest) 0 start_row (List.length first)) as [body|] eqn:E;
    [|discriminate].
  apply some_inj in H; subst s.
  rewrite !count_char_app, count_gt_header, count_gt_repeat by reflexivity.
  change (count_char gt_char "    ") with 0%nat; change (count_char gt_char newline) with 0%nat;
  change (count_char gt_char "  +") with 0%nat; change (count_char gt_char "+") with 0%nat.
  rewrite (count_gt_rows _ _ _ _ _ Hg E).
  unfold grid_rows; simpl; lia.
Qed.

(** ** The puzzles of test_gemini.py *)

Lemma set_cell_glyphs (P : string -> Prop) (grid : Grid) (r c : Z) (v : string) :
  (forall line g, In line grid -> In g line -> P g) -> P v ->
  forall line g, In line (set_cell grid r c v) -> In g line -> P g.
Proof.
  intros H Hv line g Hl Hg; unfold set_cell in Hl.
  destruct (nth_error grid (Z.to_nat r)) as [line0|] eqn:E; [|eauto].
  apply list_set_In in Hl as [Hl| ->]; [eauto|].
  apply list_set_In in Hg as [Hg| ->]; [|exact Hv].
  apply (H line0); [eapply nth_error_In; eauto | exact Hg].
Qed.

Lemma place_loop_glyphs (P : string -> Prop) (draw : nat -> Z) (fuel : nat) (rows cols count : Z)
  (pick : M string) :
  (forall j v j', pick j = Some (v, j') -> P v) ->
  forall placed grid i grid' i',
  (forall line g, In line grid -> In g line -> P g) ->
  place_loop draw fuel rows cols count pick placed grid i = Some (grid', i') ->
  forall line g, In line grid' -> In g line -> P g.
Proof.
  intros Hpick; induction fuel as [|fuel IH]; intros placed grid i grid' i' Hg H;
    simpl in H; [discriminate|].
  destruct (placed <? count); [|unfold ret in H; inversion H; subst; exact Hg].
  apply bind_some in H as [r [i1 [_ H]]].
  apply bind_some in H as [c [i2 [_ H]]].
  apply bind_some in H as [x [i3 [_ H]]].
  destruct (String.eqb x "."); [|eapply IH; eauto].
  apply bind_some in H as [v [i4 [Hv H]]].
  eapply IH; [|exact H].
  apply set_cell_glyphs; [exact Hg | eapply Hpick; eauto].
Qed.

Lemma gemini_grid_plain (draw : nat -> Z) (fuel : nat) (rows cols mirror_count : Z)
  (i : nat) (grid : Grid) (i' : nat) :
  Gemini.generate_grid draw fuel rows cols mirror_count i = Some (grid, i') ->
  grid_shape (Z.to_nat rows) (Z.to_nat cols) grid /\
  forall line g, In line grid -> In g line -> special g = false.
Proof.
  intros H; split.
  - eapply place_loop_shape; [apply blank_shape | exact H].
  - eapply place_loop_glyphs; [| | exact H].
    + intros j v j' Hv; unfold pick_normal, bind, coin, ret in Hv.
      destruct (Z.even _); inversion Hv; reflexivity.
    + intros line g Hl Hg.
      apply repeat_spec in Hl; subst line; apply repeat_spec in Hg; subst g; reflexivity.
Qed.

Lemma gemini_config_pos (size : string) (cfg : Gemini.Config) :
  Gemini.PUZZLE_CONFIG size = Some cfg ->
  0 < fst (Gemini.cfg_rows cfg) /\ 0 < fst (Gemini.cfg_cols cfg).
Proof.
  unfold Gemini.PUZZLE_CONFIG.
  repeat match goal with |- context [String.eqb ?a ?b] => destruct (String.eqb a b) end;
    intros H; inversion H; subst; simpl; lia.
Qed.

(** X19: the answer key of a puzzle of test_gemini.py is the one the tracer
    and the renderer of test_all_providers.py compute: on its grid and
    start row, [simulate_laser] of test_all_providers.py returns its exit
    edge, exit position and path length, [generate_puzzle_ascii] returns
    its text, and the start row is a row of the grid. *)
Theorem gemini_generate_puzzle_answer_key (draw : nat -> Z) (fuel : nat) (size : string)
  (i : nat) (p : Gemini.Puzzle) (i' : nat) :
  Gemini.generate_puzzle draw fuel size i = Some (p, i') ->
  exists r, simulate_laser (Gemini.gp_grid p) (Gemini.gp_start_row p) DRight = Returned r /\
    Gemini.gp_answer_edge p = r_edge r /\ Gemini.gp_answer_position p = r_position r /\
    Gemini.gp_path_length p = Z.of_nat (List.length (r_path r)) /\
    generate_puzzle_ascii (Gemini.gp_grid p) (Gemini.gp_start_row p) = Some (Gemini.gp_ascii p) /\
    0 <= Gemini.gp_start_row p < Z.of_nat (List.length (Gemini.gp_grid p)).
Proof.
  intros H; unfold Gemini.generate_puzzle in H.
  apply bind_some in H as [cfg [i1 [Hc H]]]; apply lift_some in Hc as [Hc _].
  apply bind_some in H as [rows [i2 [Hrows H]]]; apply randint_range in Hrows as [Hrows _].
  apply bind_some in H as [cols [i3 [_ H]]].
  apply bind_some in H as [m [i4 [_ H]]].
  apply bind_some in H as [grid [i5 [Hg H]]].
  apply bind_some in H as [start_row [i6 [Hs H]]]; apply randint_range in Hs as [Hs _].
  destruct (gemini_config_pos size cfg Hc) as [Pr _].
  destruct (gemini_grid_plain _ _ _ _ _ _ _ _ Hg) as [[Hl _] Hplain].
  rewrite (gemini_simulate_laser_agrees_of grid start_row DRight Hplain) in H.
  destruct (simulate_laser grid start_row DRight) as [result| |] eqn:Es; try discriminate.
  cbn [project] in H.
  apply bind_some in H as [ascii [i7 [Ha H]]]; apply lift_some in Ha as [Ha _].
  unfold ret in H; injection H as Hp _; subst p.
  rewrite gemini_generate_puzzle_ascii_same_of in Ha.
  exists result; cbn [Gemini.gp_grid Gemini.gp_start_row Gemini.gp_answer_edge
                      Gemini.gp_answer_position Gemini.gp_path_length Gemini.gp_ascii
                      Gemini.g_edge Gemini.g_position Gemini.g_result_path].
  repeat split; auto; lia.
Qed.

(** ** Witnesses *)


Lemma init_state_start_column_witness :
  (0 <= 0 < 1 /\ 0 < 1) /\
  forall st', step 1 1 (init_state [["/"]] 0 DRight) = Next st' \/
              step 1 1 (init_state [["/"]] 0 DRight) = Break st' ->
              st_path st' = [(0, 0, DRight)].
Proof.
  split; [lia|].
  destruct (init_state_start_column [["/"]] 0 DRight 1 1 ltac:(lia) ltac:(lia))
    as (_ & _ & _ & _ & _ & _ & _ & _ & _ & _ & H).
  exact H.
Defined.

Lemma portal_turn_witness :
  (exists st', step 1 3 (init_state portal_pair_grid 0 DRight) = Next st' /\
     (st_row st', st_col st') = (0, 3) /\ st_teleports st' = 1) /\
  (exists st', step 1 2 (init_state lone_portal_grid 0 DRight) = Next st' /\
     (st_row st', st_col st') = (0, 1) /\ st_teleports st' = 0).
Proof.
  split.
  - destruct (portal_turn 1 3 (init_state portal_pair_grid 0 DRight) "1"
                ltac:(simpl; lia) ltac:(simpl; lia) ltac:(vm_compute; reflexivity)
                ltac:(simpl; auto)
                ltac:(intros line Hl; simpl in Hl; intuition (subst; reflexivity)))
      as [Hyes _].
    destruct (Hyes 0 2 (Z.le_refl 0) ltac:(lia) ltac:(vm_compute; reflexivity) ltac:(discriminate))
      as (r' & c' & st' & Hs & _ & _ & Huniq & Hpos & _ & Ht & _).
    assert (Hrc : (r', c') = (0, 2)).
    { apply Huniq; intros r c Hr0 Hc0 H; simpl in H.
      rewrite <- (Z2Nat.id r Hr0), <- (Z2Nat.id c Hc0).
      unfold cell_at in H; destruct (Z.to_nat r) as [|n]; simpl in H; [|destruct n; discriminate].
      destruct (Z.to_nat c) as [|[|[|m]]]; simpl in H; try discriminate; try (destruct m; discriminate); first [left; reflexivity | right; reflexivity | reflexivity]. }
    injection Hrc as -> ->.
    exists st'; split; [exact Hs|]; split; [rewrite Hpos; reflexivity|]; rewrite Ht; reflexivity.
  - destruct (portal_turn 1 2 (init_state lone_portal_grid 0 DRight) "1"
                ltac:(simpl; lia) ltac:(simpl; lia) ltac:(vm_compute; reflexivity)
                ltac:(simpl; auto)
                ltac:(intros line Hl; simpl in Hl; intuition (subst; reflexivity)))
      as [_ Hno].
    destruct Hno as (st' & Hs & Hpos & _ & Ht & _).
    { intros r c Hr0 Hc0 H; simpl in H |- *.
      rewrite <- (Z2Nat.id r Hr0), <- (Z2Nat.id c Hc0).
      unfold cell_at in H; destruct (Z.to_nat r) as [|n]; simpl in H; [|destruct n; discriminate].
      destruct (Z.to_nat c) as [|[|m]]; simpl in H; try discriminate; try (destruct m; discriminate); first [left; reflexivity | right; reflexivity | reflexivity]. }
    exists st'; split.
    + destruct Hs as [Hs|Hs]; [exact Hs|vm_compute in Hs; discriminate].
    + split; [rewrite Hpos; reflexivity|]; rewrite Ht; reflexivity.
Defined.

(** Second visit of the toggle mirror of [toggle_loop_grid]: it is OFF now,
    so the ray keeps its direction and the bounce count stays. *)
Lemma toggle_mirror_visits_witness :
  let st := trace_after toggle_loop_grid 1 DRight 2 in
  exists st', step 3 1 st = Next st' /\ st_dir st' = st_dir st /\
    st_bounces st' = st_bounces st /\
    assoc_get (st_toggle st') (st_row st, st_col st) = Some true.
Proof.
  intros st.
  assert (Hs : step 3 1 st = Next (iter_next 3 1 st 1)) by (vm_compute; reflexivity).
  destruct (toggle_mirror_visits toggle_loop_grid 1 DRight 3 1 st (iter_next 3 1 st 1) "[/"
              (trace_after_reachable toggle_loop_grid 1 DRight 2) (or_introl Hs)
              ltac:(vm_compute; reflexivity) ltac:(vm_compute; reflexivity))
    as (_ & Hd & Hb & Ht & _).
  exists (iter_next 3 1 st 1); split; [exact Hs|].
  vm_compute in Hd, Hb, Ht |- *; auto.
Defined.

(** Second visit of the degrading mirror of [portal_loop_grid]. *)
Lemma degrading_mirror_first_visit_witness :
  let st := trace_after portal_loop_grid 1 DRight 2 in
  exists st', step 3 1 st = Next st' /\ st_dir st' = st_dir st /\
    st_bounces st' = st_bounces st.
Proof.
  intros st.
  assert (Hs : step 3 1 st = Next (iter_next 3 1 st 1)) by (vm_compute; reflexivity).
  destruct (degrading_mirror_first_visit portal_loop_grid 1 DRight 3 1 st (iter_next 3 1 st 1) "~"
              (trace_after_reachable portal_loop_grid 1 DRight 2) (or_introl Hs)
              ltac:(vm_compute; reflexivity) ltac:(vm_compute; reflexivity))
    as (m & _ & _ & Hlater).
  exists (iter_next 3 1 st 1); split; [exact Hs|].
  apply Hlater; vm_compute; discriminate.
Defined.

Lemma empty_grid_straight_line_witness :
  (exists r, simulate_laser small_empty_grid 1 DRight = Returned r /\
    r_edge r = "right" /\ r_position r = PosRow 2) /\
  (exists r, simulate_laser wide_empty_grid 1 DRight = Returned r /\
    r_edge r = "right" /\ r_position r = PosRow 1).
Proof.
  split.
  - destruct (empty_grid_straight_line small_empty_grid 1
                ltac:(discriminate)
                ltac:(intros line Hin; simpl in Hin; intuition (subst; reflexivity))
                ltac:(intros line Hin g Hg; simpl in Hin; intuition subst; simpl in Hg; intuition)
                ltac:(unfold grid_rows; simpl; lia))
      as (r & Hr & He & Hp & _).
    exists r; split; [exact Hr|]; split; [exact He|]; exact Hp.
  - destruct (empty_grid_straight_line wide_empty_grid 1
                ltac:(discriminate)
                ltac:(intros line Hin; apply repeat_spec in Hin; subst line;
                      rewrite repeat_length; reflexivity)
                ltac:(intros line Hin g Hg; apply repeat_spec in Hin; subst line;
                      apply repeat_spec in Hg; exact Hg)
                ltac:(unfold grid_rows; simpl; lia))
      as (r & Hr & He & Hp & _).
    exists r; split; [exact Hr|]; split; [exact He|]; exact Hp.
Defined.

Lemma generate_grid_portal_pairs_witness :
  generate_grid counting_draw 50 3 3 1 1 (100, 0, 0, 0) 0%nat = Some (counting_grid, 9%nat) /\
  count_glyph counting_grid "1" = 2%nat.
Proof.
  assert (H : generate_grid counting_draw 50 3 3 1 1 (100, 0, 0, 0) 0%nat = Some (counting_grid, 9%nat))
    by (vm_compute; reflexivity).
  split; [exact H|].
  exact (generate_grid_portal_pairs counting_draw 50 3 3 1 1 (100, 0, 0, 0) 0%nat counting_grid 9%nat
           H "1" ltac:(simpl; auto)).
Defined.

Lemma simulate_laser_grid_unchanged_witness :
  st_grid (trace_after portal_loop_grid 1 DRight 5) = portal_loop_grid.
Proof.
  exact (proj1 (simulate_laser_grid_unchanged portal_loop_grid 1 DRight 3 1 _
                  (trace_after_reachable portal_loop_grid 1 DRight 5))).
Defined.

Lemma col_to_letter_shape_witness :
  col_to_letter 0 = "" /\ col_to_letter 28 <> "".
Proof.
  split.
  - apply (proj1 (col_to_letter_shape 0)); lia.
  - exact (proj1 (proj2 (col_to_letter_shape 28) ltac:(lia))).
Defined.

Lemma col_to_letter_injective_witness :
  (0 < 28 /\ 0 < 28 /\ col_to_letter 28 = col_to_letter 28) /\ 28 = 28.
Proof.
  split; [split; [lia | split; [lia | reflexivity]]|].
  apply (col_to_letter_injective 28 28); [lia | lia | reflexivity].
Defined.

Lemma find_portal_exit_first_witness :
  find_portal_exit portal_pair_grid "1" 0 0 = Some (Some (0, 2)) /\
  cell_at portal_pair_grid 0 2 = Some "1".
Proof.
  assert (H : find_portal_exit portal_pair_grid "1" 0 0 = Some (Some (0, 2)))
    by (vm_compute; reflexivity).
  split; [exact H|].
  exact (proj1 (find_portal_exit_first portal_pair_grid "1" 0 0 0 2 H)).
Defined.

Lemma simulate_laser_exit_on_board_witness :
  exists res, simulate_laser counting_grid 0 DRight = Returned res /\
    exists k, r_position res = PosCol (col_to_letter k) /\ 1 <= k <= grid_cols counting_grid.
Proof.
  destruct (simulate_laser counting_grid 0 DRight) as [res| |] eqn:E;
    [| vm_compute in E; discriminate | vm_compute in E; discriminate].
  exists res; split; [reflexivity|].
  destruct (simulate_laser_exit_on_board counting_grid 0 DRight res
              ltac:(vm_compute; reflexivity) E) as [[He _]|[_ Hk]]; [|exact Hk].
  vm_compute in E; inversion E; subst res; destruct He as [He|He]; discriminate He.
Defined.

Lemma simulate_laser_path_inside_witness :
  exists res, simulate_laser counting_grid 0 DRight = Returned res /\
    Forall (fun e => 0 <= fst (fst e) < grid_rows counting_grid /\
                     0 <= snd (fst e) < grid_cols counting_grid) (r_path res).
Proof.
  destruct (simulate_laser counting_grid 0 DRight) as [res| |] eqn:E;
    [| vm_compute in E; discriminate | vm_compute in E; discriminate].
  exists res; split; [reflexivity|].
  exact (simulate_laser_path_inside counting_grid 0 DRight res E).
Defined.

Lemma simulate_laser_counts_bounded_witness :
  exists res, simulate_laser counting_grid 0 DRight = Returned res /\
    0 <= r_bounces res /\ 0 <= r_teleports res /\
    r_bounces res + r_teleports res <= Z.of_nat (List.length (r_path res)).
Proof.
  destruct (simulate_laser counting_grid 0 DRight) as [res| |] eqn:E;
    [| vm_compute in E; discriminate | vm_compute in E; discriminate].
  exists res; split; [reflexivity|].
  exact (simulate_laser_counts_bounded counting_grid 0 DRight res E).
Defined.

Lemma simulate_laser_no_portal_terminates_witness :
  (exists r, simulate_laser plain_mirror_grid 1 DRight = Returned r) \/
  simulate_laser plain_mirror_grid 1 DRight = Raised.
Proof.
  apply (simulate_laser_no_portal_terminates plain_mirror_grid 1 DRight).
  intros line g Hl Hg; simpl in Hl.
  destruct Hl as [<-|[<-|[]]]; simpl in Hg; destruct Hg as [<-|[<-|[]]];
    simpl; intuition discriminate.
Defined.

Lemma simulate_laser_start_outside_witness :
  simulate_laser small_empty_grid (-1) DRight =
    Returned (mkResult [] "top" (PosCol "A") 0 0 [] [] []) /\
  simulate_laser small_empty_grid 2 DRight =
    Returned (mkResult [] "bottom" (PosCol "A") 0 0 [] [] []).
Proof.
  split.
  - apply (proj1 (proj2 (simulate_laser_start_outside small_empty_grid (-1) DRight)));
      [discriminate | lia].
  - apply (proj2 (proj2 (simulate_laser_start_outside small_empty_grid 2 DRight)));
      [discriminate | vm_compute; discriminate].
Defined.

(** Second visit of the flipping mirror of [flip_loop_grid]: the first one
    flipped it to "\", which now turns the upward ray left, and "/" is
    stored again. *)
Lemma flipping_mirror_visits_witness :
  let st := trace_after flip_loop_grid 1 DRight 2 in
  visits (st_row st, st_col st) (st_path st) = 1%nat /\ st_dir st = DUp /\
  exists st', step 3 1 st = Next st' /\ st_dir st' = DLeft /\
    st_bounces st' = st_bounces st + 1 /\
    assoc_get (st_flip st') (st_row st, st_col st) = Some "/".
Proof.
  intros st.
  assert (Hs : step 3 1 st = Next (iter_next 3 1 st 1)) by (vm_compute; reflexivity).
  destruct (flipping_mirror_visits flip_loop_grid 1 DRight 3 1 st (iter_next 3 1 st 1) "{/"
              (trace_after_reachable flip_loop_grid 1 DRight 2) (or_introl Hs)
              ltac:(vm_compute; reflexivity) ltac:(vm_compute; reflexivity))
    as (init & Hi & Hd & Hb & Hf).
  vm_compute in Hi; injection Hi as <-.
  split; [vm_compute; reflexivity|]; split; [vm_compute; reflexivity|].
  exists (iter_next 3 1 st 1); split; [exact Hs|].
  split; [rewrite Hd; vm_compute; reflexivity|]; split; [exact Hb|].
  rewrite Hf; vm_compute; reflexivity.
Defined.

Lemma generate_grid_shape_and_fill_witness :
  generate_grid counting_draw 50 3 3 1 1 (100, 0, 0, 0) 0%nat = Some (counting_grid, 9%nat) /\
  List.length counting_grid = Z.to_nat 3 /\
  (forall line, In line counting_grid -> List.length line = Z.to_nat 3) /\
  (count_glyph counting_grid "." + Z.to_nat 1 + 2 * Z.to_nat (Z.min 1 3) =
   Z.to_nat 3 * Z.to_nat 3)%nat.
Proof.
  assert (H : generate_grid counting_draw 50 3 3 1 1 (100, 0, 0, 0) 0%nat = Some (counting_grid, 9%nat))
    by (vm_compute; reflexivity).
  split; [exact H|].
  exact (generate_grid_shape_and_fill counting_draw 50 3 3 1 1 100 0 0 0 0%nat counting_grid 9%nat
           ltac:(lia) ltac:(lia) ltac:(lia) ltac:(lia) ltac:(lia) H).
Defined.

Lemma generate_puzzle_answer_key_witness :
  exists p i', generate_puzzle counting_draw 100 "small" None 0%nat = Some (Some p, i') /\
    answer_key_ok p /\ 0 < p_bounces p + p_teleports p * 2.
Proof.
  destruct (generate_puzzle counting_draw 100 "small" None 0%nat) as [[[p|] i']|] eqn:E;
    [| vm_compute in E; discriminate | vm_compute in E; discriminate].
  exists p, i'; split; [reflexivity|].
  destruct (generate_puzzle_answer_key counting_draw 100 "small" None 0%nat p i' E)
    as [Hk [Hs _]].
  split; [exact Hk | exact Hs].
Defined.

Lemma generate_puzzle_ascii_marker_witness :
  exists s, generate_puzzle_ascii small_empty_grid 1 = Some s /\ count_char gt_char s = 1%nat.
Proof.
  destruct (generate_puzzle_ascii small_empty_grid 1) as [s|] eqn:E;
    [| vm_compute in E; discriminate].
  exists s; split; [reflexivity|].
  rewrite (generate_puzzle_ascii_marker small_empty_grid 1 s
             ltac:(intros line g Hl Hg; simpl in Hl;
                   destruct Hl as [<-|[<-|[]]]; simpl in Hg;
                   destruct Hg as [<-|[<-|[]]]; reflexivity) E).
  reflexivity.
Defined.

Lemma gemini_simulate_laser_terminates_witness :
  (exists r, Gemini.simulate_laser counting_grid 0 DRight = Gemini.Returned r) \/
  Gemini.simulate_laser counting_grid 0 DRight = Gemini.Raised.
Proof. exact (gemini_simulate_laser_terminates counting_grid 0 DRight). Defined.

Lemma gemini_simulate_laser_agrees_witness :
  Gemini.simulate_laser plain_mirror_grid 1 DRight =
    project (simulate_laser plain_mirror_grid 1 DRight).
Proof.
  apply (gemini_simulate_laser_agrees plain_mirror_grid 1 DRight).
  intros line g Hl Hg; simpl in Hl.
  destruct Hl as [<-|[<-|[]]]; simpl in Hg; destruct Hg as [<-|[<-|[]]]; reflexivity.
Defined.

Lemma generate_grid_default_is_gemini_witness :
  generate_grid counting_draw 50 3 3 2 0 (100, 0, 0, 0) 0%nat =
    Gemini.generate_grid counting_draw 50 3 3 2 0%nat.
Proof. apply (generate_grid_default_is_gemini counting_draw 50 3 3 2); lia. Defined.

Lemma gemini_generate_puzzle_answer_key_witness :
  exists p i', Gemini.generate_puzzle counting_draw 100 "small" 0%nat = Some (p, i') /\
    generate_puzzle_ascii (Gemini.gp_grid p) (Gemini.gp_start_row p) = Some (Gemini.gp_ascii p).
Proof.
  destruct (Gemini.generate_puzzle counting_draw 100 "small" 0%nat) as [[p i']|] eqn:E;
    [| vm_compute in E; discriminate].
  exists p, i'; split; [reflexivity|].
  destruct (gemini_generate_puzzle_answer_key counting_draw 100 "small" 0%nat p i' E)
    as (r & _ & _ & _ & _ & Ha & _).
  exact Ha.
Defined.
